(** * Environment config mapper: config-base.ts and settings-base.ts

    A shallow embedding of [packages/config/src/config-base.ts] and
    [packages/config/src/settings-base.ts], and the properties of the
    environment-variable-to-schema mapping stated over it.

    Modelling choices.
    - A JavaScript string is a [string]: a sequence of characters of the
      ASCII alphabet (the alphabet of environment variable names and of
      schema field names).  [toUpperCase] and [toLowerCase] map the letters
      a-z and A-Z and leave every other character alone.
    - A value of type [unknown] is a [JsValue].
    - A [Record<string, unknown>] used as a dictionary is the finite map of
      its own properties, a [gmap string JsValue]; [Object.entries] lists
      its bindings.  An assignment [o[key] = value] is [assign]: on an
      object made by an object literal the key [__proto__] reaches the
      setter inherited from [Object.prototype] and makes no own property.
      A read [o[name]] that finds no own property finds the members
      inherited from [Object.prototype] ([Logger.level_of]).
    - [process.env] is the sequence of entries [Object.entries] yields for
      it, in iteration order; a value is [None] when it is [undefined].
      The source reads the global; the functions here take the entries as
      their first argument, and [Store] keeps them as ambient state.
    - A function that may throw returns a [completion].
    - [new RegExp(separator, "g")] and [replace] are modelled on a fragment
      of the pattern language: pattern characters, the dot, and the
      unclosed group that makes the constructor throw ([RegExp]).
    - The Zod schema is a black box: its declared field names and its
      [parse]. *)

From Stdlib Require Import ZArith Ascii String.
From stdpp Require Import base option list gmap strings.

Local Open Scope Z_scope.

(** ** JavaScript strings *)

Module JsString.

Definition is_lower (c : ascii) : bool :=
  let n := N_of_ascii c in ((97 <=? n) && (n <=? 122))%N.

Definition is_upper (c : ascii) : bool :=
  let n := N_of_ascii c in ((65 <=? n) && (n <=? 90))%N.

Definition upper_char (c : ascii) : ascii :=
  if is_lower c then ascii_of_N (N_of_ascii c - 32) else c.

Definition lower_char (c : ascii) : ascii :=
  if is_upper c then ascii_of_N (N_of_ascii c + 32) else c.

Fixpoint map_chars (f : ascii → ascii) (s : string) : string :=
  match s with
  | EmptyString => EmptyString
  | String c s' => String (f c) (map_chars f s')
  end.

(** [String.prototype.toUpperCase] and [String.prototype.toLowerCase]. *)
Definition toUpperCase (s : string) : string := map_chars upper_char s.
Definition toLowerCase (s : string) : string := map_chars lower_char s.

(** [s.startsWith(p)]: the first [p.length] characters of [s] are [p]. *)
Definition startsWith (s p : string) : bool := String.prefix p s.

(** [s.endsWith(p)]: with [start = s.length - p.length], false when
    [start < 0], otherwise the characters of [s] from [start] are [p]. *)
Definition endsWith (s p : string) : bool :=
  let len := String.length s in
  let searchLength := String.length p in
  if (searchLength <=? len)%nat
  then String.eqb (String.substring (len - searchLength) searchLength s) p
  else false.

(** A relative index of [slice]: negative indices count from the end, and
    the result is clamped to [0 .. len]. *)
Definition rel_index (len i : Z) : Z :=
  if i <? 0 then Z.max (len + i) 0 else Z.min i len.

(** [s.slice(start, end)]; [end_ = None] when the argument is omitted. *)
Definition slice (s : string) (start : Z) (end_ : option Z) : string :=
  let len := Z.of_nat (String.length s) in
  let from := rel_index len start in
  let to := match end_ with None => len | Some e => rel_index len e end in
  String.substring (Z.to_nat from) (Z.to_nat (Z.max (to - from) 0)) s.

(** A string is truthy when it is not empty. *)
Definition truthy (s : string) : bool :=
  match s with EmptyString => false | String _ _ => true end.

End JsString.

Import JsString.

(** ** Values *)

(** The values a config object can hold.  Numbers are carried as integers
    and objects as references: no operation of the mapper looks inside
    either, it only tests whether a value is a string. *)
Inductive JsValue : Type :=
| VUndefined
| VNull
| VBool (b : bool)
| VNumber (n : Z)
| VString (s : string)
| VObject (ref : positive).

Global Instance JsValue_eq_dec : EqDecision JsValue.
Proof. solve_decision. Defined.

(** ** Plain objects as dictionaries *)

(** [o[key] = value] on an object made by the literal [{}], seen as the map
    of its own properties.  The assignment creates or updates the own
    property [key], except for the key [__proto__]: that assignment reaches
    the setter [Object.prototype] provides, which replaces the prototype of
    [o] when the value is an object or [null] and does nothing otherwise;
    in both cases [o] gets no own property.  An object held as a value is
    taken to be plain data with writable properties, as [JSON.parse] and
    [yaml.load] make them, so that as a prototype it lets every later
    assignment through. *)
Definition assign {V} (key : string) (value : V) (o : gmap string V)
    : gmap string V :=
  if decide (key = "__proto__") then o else <[key := value]> o.

(** The names every plain object inherits from [Object.prototype]: reading
    one of them on an object without an own property of that name gives a
    function (for [__proto__], the prototype object), never [undefined]. *)
Definition Object_prototype_names : list string :=
  ["constructor"; "__defineGetter__"; "__defineSetter__"; "hasOwnProperty";
   "__lookupGetter__"; "__lookupSetter__"; "isPrototypeOf";
   "propertyIsEnumerable"; "toString"; "valueOf"; "__proto__";
   "toLocaleString"].

(** ** Masking (config-base.ts, lines 13-31) *)

Definition SENSITIVE_POSTFIXES : list string :=
  ["password"; "pw"; "key"; "secret"; "credentials"].

Definition isSensitive (key : string) : bool :=
  let keyLower := toLowerCase key in
  existsb (λ postfix, endsWith keyLower postfix) SENSITIVE_POSTFIXES.

Definition is_nullish_or_empty (value : JsValue) : bool :=
  match value with
  | VNull | VUndefined | VString EmptyString => true
  | _ => false
  end.

Definition maskValue (value : JsValue) : string :=
  if is_nullish_or_empty value then "<not set>"
  else match value with
       | VString s =>
           if Z.of_nat (String.length s) <=? 4 then "****"
           else slice s 0 (Some 2) +:+ "..." +:+ slice s (-2) None
       | _ => "****"
       end.

(** ** Completions *)

(** The outcome of a call: a value, a thrown exception, or [Unmodelled] when
    the call leaves the fragment of the RegExp pattern language that
    [RegExp.compile] covers. *)
Inductive completion (X A : Type) : Type :=
| Normal (a : A)
| Throw (x : X)
| Unmodelled.

Arguments Normal {X A} a.
Arguments Throw {X A} x.
Arguments Unmodelled {X A}.

Global Instance completion_ret {X} : MRet (completion X) := λ A a, Normal a.

Global Instance completion_bind {X} : MBind (completion X) := λ A B k c,
  match c with
  | Normal a => k a
  | Throw x => Throw x
  | Unmodelled => Unmodelled
  end.

Global Instance completion_fmap {X} : FMap (completion X) := λ A B f c,
  match c with
  | Normal a => Normal (f a)
  | Throw x => Throw x
  | Unmodelled => Unmodelled
  end.

(** ** Regular expressions: the fragment [toFieldName] is studied on *)

Module RegExp.

Inductive syntax_error : Type := SyntaxError.

(** The production SyntaxCharacter of the pattern grammar. *)
Definition syntax_characters : list ascii :=
  ["^"; "$"; "\"; "."; "*"; "+"; "?"; "("; ")"; "["; "]"; "{"; "}"; "|"]%char.

Definition is_syntax_character (c : ascii) : bool :=
  bool_decide (c ∈ syntax_characters).

(** A pattern of the fragment is a sequence of atoms: a pattern character,
    which matches itself, or [.], which matches every character that is
    not a line terminator. *)
Inductive atom : Type :=
| Char (c : ascii)
| Dot.

Definition is_line_terminator (c : ascii) : bool :=
  bool_decide (c = "010"%char) || bool_decide (c = "013"%char).

Definition atom_matches (a : atom) (c : ascii) : bool :=
  match a with
  | Char c' => bool_decide (c' = c)
  | Dot => negb (is_line_terminator c)
  end.

(** The atoms of a source text whose only syntax character is [.]. *)
Fixpoint atoms_of (source : string) : option (list atom) :=
  match source with
  | EmptyString => Some []
  | String c rest =>
      if bool_decide (c = "."%char) then (Dot ::.) <$> atoms_of rest
      else if is_syntax_character c then None
      else (Char c ::.) <$> atoms_of rest
  end.

(** Every syntax character of the source is [.] or [(]. *)
Fixpoint only_dots_and_open_parens (source : string) : bool :=
  match source with
  | EmptyString => true
  | String c rest =>
      (negb (is_syntax_character c) || bool_decide (c = "."%char)
       || bool_decide (c = "("%char))
      && only_dots_and_open_parens rest
  end.

(** [new RegExp(source, "g")].  A source of pattern characters and dots
    compiles to its atoms.  A source that has an opening parenthesis and
    otherwise only pattern characters and dots has a group that is never
    closed: the constructor throws a SyntaxError.  Other sources are
    outside the fragment. *)
Definition compile (source : string) : completion syntax_error (list atom) :=
  match atoms_of source with
  | Some pattern => Normal pattern
  | None =>
      if only_dots_and_open_parens source then Throw SyntaxError
      else Unmodelled
  end.

(** The pattern matches at the start of [s]. *)
Fixpoint matches_at (pattern : list atom) (s : string) : bool :=
  match pattern, s with
  | [], _ => true
  | a :: pattern', String c s' => atom_matches a c && matches_at pattern' s'
  | _ :: _, EmptyString => false
  end.

(** [s.replace(re, replacement)] for a global [re] and a replacement text
    without [$]: scan [s] from the left; at a match emit the replacement
    and continue after the match (after an empty match the next character
    is copied and the scan moves one character on); elsewhere copy the
    character.  [skip] counts the characters of the current match that
    are still to be dropped. *)
Fixpoint replace_scan (pattern : list atom) (replacement : string)
    (skip : nat) (s : string) : string :=
  match skip with
  | S skip' =>
      match s with
      | EmptyString => EmptyString
      | String _ s' => replace_scan pattern replacement skip' s'
      end
  | O =>
      if matches_at pattern s then
        replacement +:+
        match pattern, s with
        | [], String c s' => String c (replace_scan pattern replacement 0 s')
        | _ :: pattern', String _ s' =>
            replace_scan pattern replacement (length pattern') s'
        | _, EmptyString => EmptyString
        end
      else
        match s with
        | EmptyString => EmptyString
        | String c s' => String c (replace_scan pattern replacement 0 s')
        end
  end.

Definition replace (pattern : list atom) (replacement s : string) : string :=
  replace_scan pattern replacement 0 s.

End RegExp.

(** ** Collecting the candidate mapping (config-base.ts, lines 33-59) *)

Record FromEnvOptions : Type := {
  prefix : option string;
  separator : option string;
}.

Definition toFieldName (envKey separator : string)
    : completion RegExp.syntax_error string :=
  if String.eqb separator "_"
  then Normal (toLowerCase envKey)
  else
    re ← RegExp.compile separator;
    Normal (toLowerCase (RegExp.replace re "_" envKey)).

(** [Object.entries(process.env)]. *)
Definition ProcessEnv : Type := list (string * option string).

(** The body of the [for] loop, on the entries still to visit. *)
Fixpoint collectEnvValues_loop (prefixUpper separator : string)
    (entries : ProcessEnv) (envValues : gmap string JsValue)
    : completion RegExp.syntax_error (gmap string JsValue) :=
  match entries with
  | [] => Normal envValues
  | (envKey, envValue) :: entries' =>
      match envValue with
      | None => collectEnvValues_loop prefixUpper separator entries' envValues
      | Some value =>
          if truthy prefixUpper && startsWith envKey prefixUpper then
            field ← toFieldName
                      (slice envKey (Z.of_nat (String.length prefixUpper)) None)
                      separator;
            collectEnvValues_loop prefixUpper separator entries'
              (assign field (VString value) envValues)
          else if negb (truthy prefixUpper) then
            field ← toFieldName envKey separator;
            collectEnvValues_loop prefixUpper separator entries'
              (assign field (VString value) envValues)
          else collectEnvValues_loop prefixUpper separator entries' envValues
      end
  end.

Definition collectEnvValues (env : ProcessEnv) (prefix separator : string)
    : completion RegExp.syntax_error (gmap string JsValue) :=
  let prefixUpper := toUpperCase prefix in
  collectEnvValues_loop prefixUpper separator env ∅.

(** ** Schemas and loading (config-base.ts, lines 61-77) *)

(** What [schema.parse] does with a candidate mapping: it returns the typed
    object or throws the schema's validation error. *)
Inductive parse_result (T E : Type) : Type :=
| Parsed (t : T)
| Rejected (e : E).

Arguments Parsed {T E} t.
Arguments Rejected {T E} e.

(** A Zod schema as the mapper uses it: the declared fields [shape] (of an
    object schema) and the validation capability [parse], a black box. *)
Record ZodSchema (F T E : Type) : Type := {
  shape : gmap string F;
  parse : gmap string JsValue → parse_result T E;
}.

Arguments shape {F T E} _.
Arguments parse {F T E} _ _.

(** What a call of [fromEnv] can throw. *)
Inductive thrown (E : Type) : Type :=
| RegExpError (x : RegExp.syntax_error)
| ZodError (e : E).

Arguments RegExpError {E} x.
Arguments ZodError {E} e.

Definition no_options : FromEnvOptions := {| prefix := None; separator := None |}.

Definition fromEnv {F T E} (env : ProcessEnv) (schema : ZodSchema F T E)
    (options : FromEnvOptions) : completion (thrown E) T :=
  let prefix := default EmptyString (prefix options) in
  let separator := default "_" (separator options) in
  match collectEnvValues env prefix separator with
  | Normal envValues =>
      match parse schema envValues with
      | Parsed config => Normal config
      | Rejected e => Throw (ZodError e)
      end
  | Throw x => Throw (RegExpError x)
  | Unmodelled => Unmodelled
  end.

(** ** Derived views (config-base.ts, lines 79-119) *)

Definition Object_entries {V} (o : gmap string V) : list (string * V) :=
  map_to_list o.

Definition Object_keys {V} (o : gmap string V) : list string :=
  (map_to_list o).*1.

Definition getExtraConfigs {F T E} (config : gmap string JsValue)
    (schema : ZodSchema F T E) : gmap string JsValue :=
  let schemaKeys : gset string := list_to_set (Object_keys (shape schema)) in
  foldl (λ extras '(key, value),
           if negb (bool_decide (key ∈ schemaKeys))
           then assign key value extras
           else extras)
        ∅ (Object_entries config).

Definition getPrintableConfig (config : gmap string JsValue)
    : gmap string JsValue :=
  foldl (λ result '(key, value),
           assign key
             (if isSensitive key then VString (maskValue value) else value)
             result)
        ∅ (Object_entries config).

(** ** Settings (settings-base.ts) *)

Record SettingsOptions : Type := {
  options_envFile : option string;
  options_caseSensitive : option bool;
}.

Record Settings (T : Type) : Type := {
  config : T;
  envFile : string;
  caseSensitive : bool;
}.

Arguments config {T} _.
Arguments envFile {T} _.
Arguments caseSensitive {T} _.

Definition createSettings {F T E} (env : ProcessEnv) (schema : ZodSchema F T E)
    (options : SettingsOptions) : completion (thrown E) (Settings T) :=
  let envFile := default ".env" (options_envFile options) in
  let caseSensitive := default false (options_caseSensitive options) in
  config ← fromEnv env schema no_options;
  Normal {| config := config; envFile := envFile; caseSensitive := caseSensitive |}.

Definition loadConfig {F T E} (env : ProcessEnv) (schema : ZodSchema F T E)
    (options : FromEnvOptions) : completion (thrown E) T :=
  fromEnv env schema options.

(** ** The same operations over a store

    To say what an operation leaves alone, objects live in a store: each
    object is a dictionary at a location, and [process.env] is ambient
    state.  The operations are written in a state monad whose primitives
    are the effects the source has: allocate an object literal, assign a
    property, list the entries of an object, read the environment. *)

Module Store.

Definition loc : Type := positive.

Record store : Type := {
  objects : gmap loc (gmap string JsValue);
  process_env : ProcessEnv;
}.

(** A computation returns its completion and the store it leaves, also
    when it throws. *)
Definition M (X A : Type) : Type := store → completion X A * store.

Definition ret {X A} (a : A) : M X A := λ σ, (Normal a, σ).

Definition bind {X A B} (m : M X A) (k : A → M X B) : M X B := λ σ,
  match m σ with
  | (Normal a, σ') => k a σ'
  | (Throw x, σ') => (Throw x, σ')
  | (Unmodelled, σ') => (Unmodelled, σ')
  end.

Notation "x ←' m ; k" := (bind m (λ x, k))
  (at level 20, m at level 100, k at level 200, only parsing).
Notation "m ;;' k" := (bind m (λ _, k))
  (at level 100, k at level 200, right associativity, only parsing).

(** A pure call that may throw. *)
Definition lift {X A} (c : completion X A) : M X A := λ σ, (c, σ).

(** Rethrow under another exception type. *)
Definition rethrow {X Y A} (f : X → Y) (m : M X A) : M Y A := λ σ,
  match m σ with
  | (Normal a, σ') => (Normal a, σ')
  | (Throw x, σ') => (Throw (f x), σ')
  | (Unmodelled, σ') => (Unmodelled, σ')
  end.

(** [{}]: a new object at a location not in use. *)
Definition new_object {X} : M X loc := λ σ,
  let l := fresh (dom (objects σ)) in
  (Normal l, {| objects := <[l := ∅]> (objects σ);
                process_env := process_env σ |}).

(** [o[key] = value], on the own properties of [o]. *)
Definition set_property {X} (o : loc) (key : string) (value : JsValue)
    : M X unit := λ σ,
  (Normal (), {| objects := alter (assign key value) o (objects σ);
                 process_env := process_env σ |}).

Definition contents (σ : store) (o : loc) : gmap string JsValue :=
  default ∅ (objects σ !! o).

(** [Object.entries(o)] and [Object.keys(o)]. *)
Definition entries_of {X} (o : loc) : M X (list (string * JsValue)) := λ σ,
  (Normal (Object_entries (contents σ o)), σ).

Definition keys_of {X} (o : loc) : M X (list string) := λ σ,
  (Normal (Object_keys (contents σ o)), σ).

(** [Object.entries(process.env)]. *)
Definition env_entries {X} : M X ProcessEnv := λ σ,
  (Normal (process_env σ), σ).

(** [for (const x of xs) body]. *)
Fixpoint for_of {X A} (xs : list A) (body : A → M X unit) : M X unit :=
  match xs with
  | [] => ret ()
  | x :: xs' => body x ;;' for_of xs' body
  end.

(** The body of the [for] loop of [collectEnvValues]. *)
Definition collectEnvValues_round (envValues : loc)
    (prefixUpper separator : string) (entry : string * option string)
    : M RegExp.syntax_error unit :=
  let '(envKey, envValue) := entry in
  match envValue with
  | None => ret ()
  | Some value =>
      if truthy prefixUpper && startsWith envKey prefixUpper then
        field ←' lift (toFieldName
                  (slice envKey (Z.of_nat (String.length prefixUpper)) None)
                  separator);
        set_property envValues field (VString value)
      else if negb (truthy prefixUpper) then
        field ←' lift (toFieldName envKey separator);
        set_property envValues field (VString value)
      else ret ()
  end.

Definition collectEnvValues (prefix separator : string)
    : M RegExp.syntax_error loc :=
  let prefixUpper := toUpperCase prefix in
  envValues ←' new_object;
  entries ←' env_entries;
  for_of entries (collectEnvValues_round envValues prefixUpper separator) ;;'
  ret envValues.

(** [schema.parse] over the store: it receives the candidate object and
    returns the parsed config object or throws. *)
Definition parser (E : Type) : Type := loc → M E loc.

Definition fromEnv {E} (parse : parser E) (options : FromEnvOptions)
    : M (thrown E) loc :=
  let prefix := default EmptyString (prefix options) in
  let separator := default "_" (separator options) in
  envValues ←' rethrow RegExpError (collectEnvValues prefix separator);
  rethrow ZodError (parse envValues).

Definition getExtraConfigs {X} (config shape : loc) : M X loc :=
  keys ←' keys_of shape;
  let schemaKeys : gset string := list_to_set keys in
  extras ←' new_object;
  entries ←' entries_of config;
  for_of entries (λ '(key, value),
    if negb (bool_decide (key ∈ schemaKeys))
    then set_property extras key value
    else ret ()) ;;'
  ret extras.

Definition getPrintableConfig {X} (config : loc) : M X loc :=
  result ←' new_object;
  entries ←' entries_of config;
  for_of entries (λ '(key, value),
    set_property result key
      (if isSensitive key then VString (maskValue value) else value)) ;;'
  ret result.

(** [σ'] has every object of [σ] with the contents it had, and the same
    environment. *)
Definition preserved (σ σ' : store) : Prop :=
  process_env σ' = process_env σ
  ∧ ∀ l o, objects σ !! l = Some o → objects σ' !! l = Some o.

End Store.

(** * The logger: per-logger levels

    The part of the structured-logging module that is plain computation:
    flattening a parsed levels document, normalizing level names, reading
    the levels from the environment, and resolving the level of a logger by
    its dotted name.  The logging library, the file system and the two
    parsers stay outside: the parsers are parameters. *)

Module Logger.

(** A parsed JSON or YAML document.  An object is the sequence of its
    entries, as [Object.entries] lists them. *)
#[local] Unset Elimination Schemes.
Inductive Json : Type :=
| JNull
| JBool (b : bool)
| JNumber (n : Z)
| JString (s : string)
| JArray (items : list Json)
| JObject (entries : list (string * Json)).
#[local] Set Elimination Schemes.

(** [Object.assign(target, source)]: every own property of [source] is
    assigned to [target]. *)
Definition Object_assign {V} (target source : gmap string V) : gmap string V :=
  foldl (λ target '(key, value), assign key value target)
        target (Object_entries source).

(** [flattenYamlDict(data, parentKey)], on the object [data]; a value that
    is no object has no entries to visit. *)
Fixpoint flatten (data : Json) (parentKey : string) : gmap string string :=
  match data with
  | JObject entries =>
      (fix loop (entries : list (string * Json)) (result : gmap string string)
         : gmap string string :=
         match entries with
         | [] => result
         | (key, value) :: entries' =>
             let newKey :=
               if truthy parentKey then parentKey +:+ "." +:+ key else key in
             match value with
             | JObject _ =>
                 loop entries' (Object_assign result (flatten value newKey))
             | JString s => loop entries' (assign newKey s result)
             | _ => loop entries' result
             end
         end) entries ∅
  | _ => ∅
  end.

Definition flattenYamlDict (data : list (string * Json)) (parentKey : string)
    : gmap string string :=
  flatten (JObject data) parentKey.

(** The loop that closes both loaders:
    [result[name] = level.toUpperCase() === "WARN" ? "warn" : level.toLowerCase()].
    Its input is a result of [flattenYamlDict], which has no key
    [__proto__], so every assignment makes a binding. *)
Definition normalize_levels (flattened : gmap string string)
    : gmap string string :=
  foldl (λ result '(name, level),
           <[name := if String.eqb (toUpperCase level) "WARN"
                     then "warn" else toLowerCase level]> result)
        ∅ (Object_entries flattened).

(** [process.env.NAME]. *)
Fixpoint getenv (env : ProcessEnv) (name : string) : option string :=
  match env with
  | [] => None
  | (envKey, envValue) :: env' =>
      if String.eqb envKey name then envValue else getenv env' name
  end.

Definition newline : string := String "010"%char EmptyString.

Section loaders.

(** [JSON.parse] and [yaml.load]: the document, or the text of the error
    thrown.  [loadLoggingLevelsFromFile]: its result ([None] for [null])
    and what it wrote to the standard error stream. *)
Variables JSON_parse yaml_load : string → string + Json.
Variable loadLoggingLevelsFromFile : string → option (gmap string string) * list string.

(** The tail of [loadLoggingLevelsFromEnv]: from the parsed value on. *)
Definition levels_of_parsed (parsed : Json)
    : option (gmap string string) * list string :=
  match parsed with
  | JObject entries => (Some (normalize_levels (flattenYamlDict entries EmptyString)), [])
  | _ => (None, ["Warning: LOGGING_LEVELS must be an object" +:+ newline])
  end.

(** [loadLoggingLevelsFromEnv] past the levels file: the levels of the
    variable LOGGING_LEVELS, after the lines [written] so far. *)
Definition levels_of_variable (env : ProcessEnv) (written : list string)
    : option (gmap string string) * list string :=
  match getenv env "LOGGING_LEVELS" with
  | None => (None, written)
  | Some envValue =>
      if negb (truthy envValue) then (None, written)
      else
        match JSON_parse envValue with
        | inr parsed =>
            let '(result, w) := levels_of_parsed parsed in (result, written ++ w)
        | inl _ =>
            match yaml_load envValue with
            | inr parsed =>
                let '(result, w) := levels_of_parsed parsed in
                (result, written ++ w)
            | inl e =>
                (None,
                 written ++
                 ["Warning: Failed to parse LOGGING_LEVELS as JSON or YAML: "
                  +:+ e +:+ newline])
            end
        end
  end.

(** [loadLoggingLevelsFromEnv()]: the levels, or [None] for [null], and
    the lines written to the standard error stream. *)
Definition loadLoggingLevelsFromEnv (env : ProcessEnv)
    : option (gmap string string) * list string :=
  match getenv env "LOGGING_LEVELS_FILE" with
  | Some filePath =>
      if truthy filePath then
        match loadLoggingLevelsFromFile filePath with
        | (Some result, written) => (Some result, written)
        | (None, written) => levels_of_variable env written
        end
      else levels_of_variable env []
  | None => levels_of_variable env []
  end.

End loaders.

(** What reading [loggerLevels[name]] gives when it is truthy: the level of
    an own entry, or a member inherited from [Object.prototype] (a
    function). *)
Inductive member : Type :=
| Level (level : string)
| Inherited (name : string).

(** [loggerLevels[name]] when it is truthy, for a table that is a plain
    object: an own entry whose level is not the empty string; without an
    own entry, the inherited member of that name, if there is one. *)
Definition level_of (loggerLevels : gmap string string) (name : string)
    : option member :=
  match loggerLevels !! name with
  | Some level => if truthy level then Some (Level level) else None
  | None =>
      if bool_decide (name ∈ Object_prototype_names)
      then Some (Inherited name) else None
  end.

(** [name.split(".")]. *)
Fixpoint split_dots (name : string) : list string :=
  match name with
  | EmptyString => [EmptyString]
  | String c rest =>
      if bool_decide (c = "."%char) then EmptyString :: split_dots rest
      else match split_dots rest with
           | part :: parts => String c part :: parts
           | [] => [String c EmptyString]
           end
  end.

(** [parts.join(".")]. *)
Definition join_dots (parts : list string) : string := String.concat "." parts.

(** The loop [for (let i = parts.length - 1; i > 0; i--)], from [i] down. *)
Fixpoint resolve_parents (loggerLevels : gmap string string)
    (parts : list string) (i : nat) : option member :=
  match i with
  | O => None
  | S i' =>
      let parentName := join_dots (take i parts) in
      match level_of loggerLevels parentName with
      | Some level => Some level
      | None => resolve_parents loggerLevels parts i'
      end
  end.

(** [resolveLoggerLevel(name)], reading the table [loggerLevels]; [None]
    is [undefined]. *)
Definition resolveLoggerLevel (loggerLevels : gmap string string)
    (name : string) : option member :=
  match level_of loggerLevels name with
  | Some level => Some level
  | None =>
      let parts := split_dots name in
      resolve_parents loggerLevels parts (length parts - 1)
  end.

(** [p] is the name of [name] or of one of its ancestors in the dotted
    hierarchy. *)
Definition dotted_prefix (p name : string) : Prop :=
  p = name ∨ ∃ rest, name = p +:+ "." +:+ rest.

(** The key a leaf of the document is flattened to: the keys on the way to
    it, joined as [flattenYamlDict] joins them. *)
Definition child_key (parentKey key : string) : string :=
  if truthy parentKey then parentKey +:+ "." +:+ key else key.

(** The loop of [flattenYamlDict], from a result on. *)
Definition flatten_loop (parentKey : string) (entries : list (string * Json))
    (result : gmap string string) : gmap string string :=
  foldl (λ result '(key, value),
           match value with
           | JObject _ =>
               Object_assign result (flatten value (child_key parentKey key))
           | JString s => assign (child_key parentKey key) s result
           | _ => result
           end)
        result entries.

(** The key [key] below the parent [parentKey]. *)
Definition under (parentKey key : string) : string :=
  parentKey +:+ "." +:+ key.

(** The table with every key put below [parentKey]. *)
Definition below (parentKey : string) (table : gmap string string)
    : gmap string string :=
  kmap (under parentKey) table.

(** A flat document: every value is a string. *)
Definition flat_document (levels : list (string * string))
    : list (string * Json) :=
  (λ '(name, level), (name, JString level)) <$> levels.

(** There is a string [s] in the document at the end of [path]. *)
Inductive leaf_at : list (string * Json) → list string → string → Prop :=
| leaf_here entries key s :
    (key, JString s) ∈ entries → leaf_at entries [key] s
| leaf_below entries key sub path s :
    (key, JObject sub) ∈ entries → leaf_at sub path s →
    leaf_at entries (key :: path) s.

(** Every key of every object of the document has a character. *)
Fixpoint keys_not_empty (data : Json) : bool :=
  match data with
  | JObject entries =>
      forallb (λ entry, truthy entry.1 && keys_not_empty entry.2) entries
  | _ => true
  end.

End Logger.

(** ** Vocabulary of the claims *)

(** The variable name starts with the prefix, letter case ignored. *)
Definition starts_with_ignoring_case (name prefix : string) : bool :=
  startsWith (toUpperCase name) (toUpperCase prefix).

(** The variable [envKey] derives the field name [field]: the collection
    selects it (the prefix is empty, or the name starts with the upper-cased
    prefix) and normalizes what is left of its name to [field]. *)
Definition derives (prefix separator envKey field : string) : Prop :=
  let prefixUpper := toUpperCase prefix in
  (prefixUpper = EmptyString ∧ toFieldName envKey separator = Normal field)
  ∨ (prefixUpper ≠ EmptyString
     ∧ startsWith envKey prefixUpper = true
     ∧ toFieldName (slice envKey (Z.of_nat (String.length prefixUpper)) None)
         separator = Normal field).

(** Field-name derivation as the specification words it: every occurrence
    of the separator, read letter for letter, is replaced.  Occurrences are
    taken from the left and do not overlap. *)
Fixpoint replace_occurrences (separator replacement : string)
    (skip : nat) (s : string) : string :=
  match skip with
  | S skip' =>
      match s with
      | EmptyString => EmptyString
      | String _ s' => replace_occurrences separator replacement skip' s'
      end
  | O =>
      if startsWith s separator then
        replacement +:+
        match separator, s with
        | EmptyString, String c s' =>
            String c (replace_occurrences separator replacement 0 s')
        | String _ separator', String _ s' =>
            replace_occurrences separator replacement (String.length separator') s'
        | _, EmptyString => EmptyString
        end
      else
        match s with
        | EmptyString => EmptyString
        | String c s' => String c (replace_occurrences separator replacement 0 s')
        end
  end.

Definition field_name_by_the_words (s separator : string) : string :=
  if String.eqb separator "_" then toLowerCase s
  else toLowerCase (replace_occurrences separator "_" 0 s).

(** The separator has no character that a RegExp reads as syntax. *)
Fixpoint plain_text (separator : string) : bool :=
  match separator with
  | EmptyString => true
  | String c rest => negb (RegExp.is_syntax_character c) && plain_text rest
  end.

(** The field name an entry of the environment is collected under, when
    it is collected at all: its value is defined, the prefix selects its
    name, and [toFieldName] returns. *)
Definition derived_field (prefix separator : string)
    (entry : string * option string) : option string :=
  let prefixUpper := toUpperCase prefix in
  let '(envKey, envValue) := entry in
  match envValue with
  | None => None
  | Some _ =>
      if truthy prefixUpper && startsWith envKey prefixUpper then
        match toFieldName
                (slice envKey (Z.of_nat (String.length prefixUpper)) None)
                separator with
        | Normal field => Some field
        | _ => None
        end
      else if negb (truthy prefixUpper) then
        match toFieldName envKey separator with
        | Normal field => Some field
        | _ => None
        end
      else None
  end.

(** No two collected entries of the environment derive the same field. *)
Definition collision_free (prefix separator : string) (env : ProcessEnv) : Prop :=
  NoDup (omap (derived_field prefix separator) env).

(** What one round of the collection loop does with an entry: nothing
    ([None]), an assignment of the value under a field, or an abrupt
    completion of [toFieldName]. *)
Definition collect_step (prefixUpper separator : string)
    (entry : string * option string)
    : completion RegExp.syntax_error (option (string * string)) :=
  let '(envKey, envValue) := entry in
  match envValue with
  | None => Normal None
  | Some value =>
      if truthy prefixUpper && startsWith envKey prefixUpper then
        field ← toFieldName
                  (slice envKey (Z.of_nat (String.length prefixUpper)) None)
                  separator;
        Normal (Some (field, value))
      else if negb (truthy prefixUpper) then
        field ← toFieldName envKey separator;
        Normal (Some (field, value))
      else Normal None
  end.

Definition assign_step (step : option (string * string))
    (envValues : gmap string JsValue) : gmap string JsValue :=
  match step with
  | Some (field, value) => assign field (VString value) envValues
  | None => envValues
  end.

(** * Properties *)

(** ** The documented scenarios *)

Example maskValue_api_key : maskValue (VString "secret123") = "se...23".
Proof. reflexivity. Qed.

Example maskValue_password : maskValue (VString "mypassword") = "my...rd".
Proof. reflexivity. Qed.

Example isSensitive_api_key : isSensitive "API_Key" = true.
Proof. reflexivity. Qed.

Example isSensitive_host : isSensitive "host" = false.
Proof. reflexivity. Qed.

Example toFieldName_default : toFieldName "CUSTOM_FIELD" "_" = Normal "custom_field".
Proof. reflexivity. Qed.

Example toFieldName_dash : toFieldName "A-B--C" "-" = Normal "a_b__c".
Proof. reflexivity. Qed.

Example toFieldName_double : toFieldName "POOL__MAX_SIZE" "__" = Normal "pool_max_size".
Proof. reflexivity. Qed.

Example toFieldName_empty_separator : toFieldName "AB" "" = Normal "_a_b_".
Proof. reflexivity. Qed.

Example collectEnvValues_prefix :
  collectEnvValues
    [("APP_HOST", Some "test"); ("HOME", Some "/root"); ("APP_EXTRA1", Some "a")]
    "APP_" "_"
  = Normal (<["extra1" := VString "a"]> (<["host" := VString "test"]> ∅)).
Proof. reflexivity. Qed.

Example getPrintableConfig_readme :
  getPrintableConfig
    (<["host" := VString "localhost"]>
      (<["api_key" := VString "secret123"]>
        (<["password" := VString "mypassword"]> ∅)))
  = <["host" := VString "localhost"]>
      (<["api_key" := VString "se...23"]>
        (<["password" := VString "my...rd"]> ∅)).
Proof. by vm_compute. Qed.

Example getExtraConfigs_readme :
  let schema : ZodSchema unit (gmap string JsValue) unit :=
    {| shape := <["host" := ()]> (<["port" := ()]> {["debug" := ()]});
       parse := Parsed |} in
  getExtraConfigs
    (<["host" := VString "test"]>
      (<["extra1" := VString "a"]> {["extra2" := VString "b"]}))
    schema
  = <["extra1" := VString "a"]> {["extra2" := VString "b"]}.
Proof. by vm_compute. Qed.

(** ** Strings *)

Section strings.
Implicit Types s p rest : string.

Lemma length_map_chars f s : String.length (map_chars f s) = String.length s.
Proof. induction s as [|c s IH]; simpl; [done | by rewrite IH]. Qed.

Lemma length_toUpperCase s : String.length (toUpperCase s) = String.length s.
Proof. apply length_map_chars. Qed.

Lemma app_cons c s1 s2 : String c s1 +:+ s2 = String c (s1 +:+ s2).
Proof. done. Qed.

Lemma length_app s1 s2 :
  String.length (s1 +:+ s2) = (String.length s1 + String.length s2)%nat.
Proof. induction s1 as [|c s1 IH]; simpl; [done | by rewrite IH]. Qed.

Lemma truthy_spec s : truthy s = true ↔ s ≠ EmptyString.
Proof. destruct s; simpl; split; (done || congruence). Qed.

Lemma truthy_toUpperCase s : truthy (toUpperCase s) = truthy s.
Proof. by destruct s. Qed.

Lemma substring_all s : String.substring 0 (String.length s) s = s.
Proof. induction s as [|c s IH]; simpl; [done | by rewrite IH]. Qed.

Lemma substring_skip p rest :
  String.substring (String.length p) (String.length rest) (p +:+ rest) = rest.
Proof. induction p as [|c p IH]; simpl; [apply substring_all | done]. Qed.

Lemma substring_split n s :
  (n ≤ String.length s)%nat →
  s = String.substring 0 n s +:+ String.substring n (String.length s - n) s.
Proof.
  revert n. induction s as [|c s IH]; intros [|n] Hn; simpl in *; try lia.
  - done.
  - by rewrite substring_all.
  - rewrite app_cons. f_equal. apply IH. lia.
Qed.

(** [startsWith] holds exactly of the strings that extend the prefix. *)
Lemma startsWith_spec s p : startsWith s p = true ↔ ∃ rest, s = p +:+ rest.
Proof.
  unfold startsWith. revert s. induction p as [|c p IH]; intros s.
  - destruct s; simpl; split; eauto.
  - destruct s as [|d s]; simpl.
    + split; [done | intros [? Hr]; by rewrite app_cons in Hr].
    + destruct (Ascii.ascii_dec c d) as [->|Hne].
      * rewrite IH. split; intros [rest Hr]; exists rest.
        -- by rewrite app_cons, Hr.
        -- rewrite app_cons in Hr. congruence.
      * split; [done | intros [? Hr]; rewrite app_cons in Hr; congruence].
Qed.

(** Slicing off a prefix leaves the remainder. *)
Lemma slice_prefix p rest :
  slice (p +:+ rest) (Z.of_nat (String.length p)) None = rest.
Proof.
  unfold slice, rel_index. rewrite length_app.
  destruct (Z.ltb_spec (Z.of_nat (String.length p)) 0); [lia|].
  rewrite Z.min_l by lia. rewrite Nat2Z.id.
  replace (Z.to_nat _) with (String.length rest) by lia.
  apply substring_skip.
Qed.

(** [endsWith] holds exactly of the strings that end in the suffix. *)
Lemma endsWith_spec s p : endsWith s p = true ↔ ∃ pre, s = pre +:+ p.
Proof.
  unfold endsWith. split.
  - destruct (Nat.leb_spec (String.length p) (String.length s)) as [Hle|]; [|done].
    intros Heq%String.eqb_eq.
    exists (String.substring 0 (String.length s - String.length p) s).
    rewrite (substring_split (String.length s - String.length p) s) at 1 by lia.
    f_equal. rewrite <- Heq at 3. f_equal. lia.
  - intros [pre ->]. rewrite length_app.
    destruct (Nat.leb_spec (String.length p) (String.length pre + String.length p));
      [|lia].
    apply String.eqb_eq.
    replace (String.length pre + String.length p - String.length p)%nat
      with (String.length pre) by lia.
    apply substring_skip.
Qed.

(** The two slices [maskValue] takes. *)
Lemma slice_first_two s :
  (2 ≤ String.length s)%nat → slice s 0 (Some 2) = String.substring 0 2 s.
Proof.
  intros Hs. unfold slice, rel_index. simpl.
  rewrite Z.min_l by lia. rewrite Z.min_l by lia. done.
Qed.

Lemma slice_last_two s :
  (2 ≤ String.length s)%nat →
  slice s (-2) None = String.substring (String.length s - 2) 2 s.
Proof.
  intros Hs. unfold slice, rel_index. simpl.
  rewrite Z.max_l by lia. f_equal; lia.
Qed.

End strings.

(** ** Masking a value *)

(** C2, as stated, fails at the empty string: it has length at most 4, and
    it is masked as the not-set marker, not as the fixed masked marker. *)
Lemma maskValue_empty_string :
  (String.length EmptyString ≤ 4)%nat
  ∧ maskValue (VString EmptyString) = "<not set>"
  ∧ maskValue (VString EmptyString) ≠ "****".
Proof. split; [simpl; lia | by split]. Qed.

Lemma maskValue_short_string (v : string) :
  (1 ≤ String.length v ≤ 4)%nat → maskValue (VString v) = "****".
Proof.
  intros Hlen. destruct v as [|c v]; [simpl in Hlen; lia|].
  unfold maskValue. cbn [is_nullish_or_empty].
  by destruct (Z.leb_spec (Z.of_nat (String.length (String c v))) 4); [|lia].
Qed.

Lemma maskValue_long_string (v : string) :
  (4 < String.length v)%nat →
  maskValue (VString v)
  = String.substring 0 2 v +:+ "..."
    +:+ String.substring (String.length v - 2) 2 v.
Proof.
  intros Hlen. destruct v as [|c v]; [simpl in Hlen; lia|].
  unfold maskValue. cbn [is_nullish_or_empty].
  destruct (Z.leb_spec (Z.of_nat (String.length (String c v))) 4); [lia|].
  by rewrite slice_first_two, slice_last_two by lia.
Qed.

(** C2 (amended): masking a string yields the not-set marker when the
    string is empty, the fixed masked marker when its length is between 1
    and 4, and its first two characters, three dots and its last two
    characters when its length is greater than 4. *)
Theorem maskValue_string (v : string) :
  (v = EmptyString → maskValue (VString v) = "<not set>")
  ∧ ((1 ≤ String.length v ≤ 4)%nat → maskValue (VString v) = "****")
  ∧ ((4 < String.length v)%nat →
     maskValue (VString v)
     = String.substring 0 2 v +:+ "..."
       +:+ String.substring (String.length v - 2) 2 v).
Proof.
  split; [by intros ->|].
  split; [apply maskValue_short_string | apply maskValue_long_string].
Qed.

Lemma maskValue_string_witness :
  maskValue (VString "secret123") = "se...23"
  ∧ maskValue (VString "1234") = "****".
Proof.
  split.
  - apply (proj2 (proj2 (maskValue_string "secret123"))). simpl. lia.
  - apply (proj1 (proj2 (maskValue_string "1234"))). simpl. lia.
Defined.

(** A value that is not a string, [null] or [undefined]. *)
Lemma maskValue_not_string (value : JsValue) :
  value ≠ VUndefined → value ≠ VNull → (∀ s, value ≠ VString s) →
  maskValue value = "****".
Proof. destruct value; intros ? ? Hs; try done. by destruct (Hs s). Qed.

(** ** Folding assignments over the entries of an object *)

Section entries.
Context {V W : Type}.
Implicit Types (l : list (string * V)) (acc : gmap string W).

(** A loop that assigns [acc[key] = w] when [h key value = Some w] and skips
    the entry otherwise. *)
Lemma foldl_assign_lookup (h : string → V → option W)
    (f : gmap string W → string * V → gmap string W) l acc k :
  (∀ r key value,
     f r (key, value) = from_option (λ w, <[key := w]> r) r (h key value)) →
  NoDup l.*1 →
  foldl f acc l !! k
  = match (list_to_map l : gmap string V) !! k ≫= h k with
    | Some w => Some w
    | None => acc !! k
    end.
Proof.
  intros Hf. revert acc. induction l as [|[k0 v0] l IH]; intros acc Hnd.
  { simpl. by rewrite lookup_empty. }
  apply NoDup_cons in Hnd as [Hk0 Hnd]. simpl. rewrite IH, Hf by done.
  destruct (decide (k = k0)) as [->|Hne].
  - rewrite lookup_insert_eq. rewrite (not_elem_of_list_to_map_1 _ k0) by done.
    simpl. destruct (h k0 v0); simpl; [by rewrite lookup_insert_eq | done].
  - rewrite lookup_insert_ne by done.
    destruct (list_to_map l !! k ≫= h k); [done|].
    destruct (h k0 v0); simpl; [by rewrite lookup_insert_ne | done].
Qed.

Lemma fold_entries_lookup (h : string → V → option W)
    (f : gmap string W → string * V → gmap string W) (o : gmap string V) k :
  (∀ r key value,
     f r (key, value) = from_option (λ w, <[key := w]> r) r (h key value)) →
  foldl f ∅ (Object_entries o) !! k = o !! k ≫= h k.
Proof.
  intros Hf. unfold Object_entries.
  rewrite (foldl_assign_lookup h) by (done || apply NoDup_fst_map_to_list).
  rewrite list_to_map_to_list, lookup_empty. by destruct (o !! k ≫= h k).
Qed.

End entries.

Lemma list_to_set_Object_keys {V} (o : gmap string V) :
  (list_to_set (Object_keys o) : gset string) = dom o.
Proof.
  apply set_eq. intros k. unfold Object_keys.
  rewrite elem_of_list_to_set, elem_of_dom, list_elem_of_fmap. split.
  - intros [[k' v] [-> Hin]]. apply elem_of_map_to_list in Hin. by exists v.
  - intros [v Hv]. exists (k, v). by rewrite elem_of_map_to_list.
Qed.

(** ** Assignments *)

Lemma assign_from_option {V} key (value : V) (o : gmap string V) :
  assign key value o
  = from_option (λ w, <[key := w]> o) o
      (if decide (key = "__proto__") then None else Some value).
Proof. unfold assign. by destruct (decide _). Qed.

Lemma assign_proto {V} (value : V) (o : gmap string V) :
  assign "__proto__" value o = o.
Proof. done. Qed.

Lemma assign_other {V} key (value : V) (o : gmap string V) :
  key ≠ "__proto__" → assign key value o = <[key := value]> o.
Proof. unfold assign. intros Hkey. by destruct (decide _). Qed.

Lemma lookup_assign_is_Some {V} key (value : V) (o : gmap string V) k :
  is_Some (o !! k) → is_Some (assign key value o !! k).
Proof.
  unfold assign. destruct (decide _); [done|]. intros Hk.
  rewrite lookup_insert. by case_decide.
Qed.

Lemma lookup_assign_ne {V} key (value : V) (o : gmap string V) k :
  key ≠ k → assign key value o !! k = o !! k.
Proof.
  unfold assign. destruct (decide _); [done|]. intros Hk.
  by rewrite lookup_insert_ne.
Qed.

Lemma lookup_assign_eq {V} key (value : V) (o : gmap string V) :
  key ≠ "__proto__" → assign key value o !! key = Some value.
Proof. intros Hkey. by rewrite assign_other, lookup_insert_eq. Qed.

Lemma lookup_assign_Some {V} key (value : V) (o : gmap string V) k w :
  assign key value o !! k = Some w →
  (key = k ∧ k ≠ "__proto__" ∧ w = value) ∨ o !! k = Some w.
Proof.
  unfold assign. destruct (decide (key = "__proto__")); [by right|].
  destruct (decide (key = k)) as [<-|Hne].
  - rewrite lookup_insert_eq. intros [= <-]. by left.
  - rewrite lookup_insert_ne by done. by right.
Qed.

Lemma lookup_assign_proto {V} key (value : V) (o : gmap string V) :
  assign key value o !! "__proto__" = o !! "__proto__".
Proof.
  unfold assign. destruct (decide _); [done|]. by rewrite lookup_insert_ne.
Qed.

Lemma assign_assign_ne {V} key1 key2 (value1 value2 : V) (o : gmap string V) :
  key1 ≠ key2 →
  assign key1 value1 (assign key2 value2 o)
  = assign key2 value2 (assign key1 value1 o).
Proof.
  intros Hne. unfold assign. repeat destruct (decide _); try done.
  by apply insert_insert_ne.
Qed.

(** ** The printable view *)

Lemma getPrintableConfig_lookup (config : gmap string JsValue) key :
  getPrintableConfig config !! key
  = if decide (key = "__proto__") then None
    else (λ value, if isSensitive key then VString (maskValue value) else value)
         <$> config !! key.
Proof.
  unfold getPrintableConfig.
  rewrite (fold_entries_lookup
    (λ key value,
       if decide (key = "__proto__") then None
       else Some (if isSensitive key then VString (maskValue value) else value))).
  - destruct (decide _); by destruct (config !! key).
  - intros r k v. apply assign_from_option.
Qed.

Lemma isSensitive_spec key :
  isSensitive key = true
  ↔ ∃ postfix pre,
      postfix ∈ ["password"; "pw"; "key"; "secret"; "credentials"]
      ∧ toLowerCase key = pre +:+ postfix.
Proof.
  unfold isSensitive. rewrite existsb_exists. split.
  - intros (postfix & Hin%list_elem_of_In & [pre Hpre]%endsWith_spec). eauto.
  - intros (postfix & pre & Hin & Hpre). exists postfix. split.
    + by apply list_elem_of_In.
    + apply endsWith_spec. eauto.
Qed.

(** C3, on the code: a config with an own key [__proto__] loses it in the
    printable view, because the assignment [result[key] = ...] reaches the
    inherited setter for that key; the key set is not the same. *)
Theorem getPrintableConfig_drops_proto_key :
  let config : gmap string JsValue :=
    <["__proto__" := VString "abcdef"]> {["host" := VString "h"]} in
  getPrintableConfig config = {["host" := VString "h"]}
  ∧ dom (getPrintableConfig config) ≠ dom config.
Proof.
  split; [by vm_compute|].
  intros Hdom. assert ("__proto__" ∈ dom (getPrintableConfig
    (<["__proto__" := VString "abcdef"]> {["host" := VString "h"]}))) as Hin.
  { rewrite Hdom. apply elem_of_dom. by rewrite lookup_insert_eq. }
  apply elem_of_dom in Hin as [v Hv].
  by rewrite getPrintableConfig_lookup in Hv.
Qed.

(** Apart from the key [__proto__], the printable view has the key set of
    its input; an entry whose lower-cased key does not end in password, pw,
    key, secret or credentials keeps its value; otherwise the value is
    replaced: by the not-set marker when it is absent ([undefined],
    [null]) or the empty string, by the fixed masked marker when it is any
    other value that is not a string or a string of length at most 4, and
    by its first two characters, three dots and its last two characters
    when it is a longer string. *)
Theorem getPrintableConfig_spec (config : gmap string JsValue) :
  dom (getPrintableConfig config) = dom config ∖ {["__proto__"]}
  ∧ ∀ key value, key ≠ "__proto__" → config !! key = Some value →
      let sensitive :=
        ∃ postfix pre,
          postfix ∈ ["password"; "pw"; "key"; "secret"; "credentials"]
          ∧ toLowerCase key = pre +:+ postfix in
      let shown := getPrintableConfig config !! key in
      (¬ sensitive → shown = Some value)
      ∧ (sensitive →
           (value = VUndefined ∨ value = VNull ∨ value = VString EmptyString →
              shown = Some (VString "<not set>"))
         ∧ (value ≠ VUndefined → value ≠ VNull → (∀ s, value ≠ VString s) →
              shown = Some (VString "****"))
         ∧ (∀ s, value = VString s → (1 ≤ String.length s ≤ 4)%nat →
              shown = Some (VString "****"))
         ∧ (∀ s, value = VString s → (4 < String.length s)%nat →
              shown = Some (VString (String.substring 0 2 s +:+ "..."
                        +:+ String.substring (String.length s - 2) 2 s)))).
Proof.
  split.
  { apply set_eq. intros key.
    rewrite elem_of_difference, elem_of_singleton, !elem_of_dom,
      getPrintableConfig_lookup.
    destruct (decide _) as [->|Hkey].
    - split; [by intros [? ?] | by intros [_ ?]].
    - rewrite fmap_is_Some. by split; [|intros [? _]]. }
  intros key value Hproto Hkey sensitive shown. subst shown.
  rewrite getPrintableConfig_lookup, Hkey. destruct (decide _); [done|]. simpl.
  pose proof (isSensitive_spec key) as Hs. fold sensitive in Hs. split.
  - intros Hno. destruct (isSensitive key); [|done]. destruct Hno. by apply Hs.
  - intros Hyes%Hs. rewrite Hyes. repeat split.
    + by intros [->|[->| ->]].
    + intros. by rewrite maskValue_not_string.
    + intros s -> Hlen. by rewrite maskValue_short_string.
    + intros s -> Hlen. by rewrite maskValue_long_string.
Qed.

Lemma getPrintableConfig_spec_witness :
  getPrintableConfig
    (<["host" := VString "localhost"]> {["api_key" := VString "secret123"]})
    !! "api_key"
  = Some (VString "se...23").
Proof.
  pose proof (getPrintableConfig_spec
    (<["host" := VString "localhost"]> {["api_key" := VString "secret123"]}))
    as [_ Hview].
  destruct (Hview "api_key" (VString "secret123") ltac:(done) eq_refl)
    as [_ Hmasked].
  destruct Hmasked as (_ & _ & _ & Hlong).
  { exists "key", "api_". split; [|done]. repeat constructor. }
  apply (Hlong "secret123"); [done | simpl; lia].
Defined.

(** ** The extras view *)

Lemma getExtraConfigs_lookup {F T E} (config : gmap string JsValue)
    (schema : ZodSchema F T E) key :
  getExtraConfigs config schema !! key
  = if decide (key = "__proto__") then None
    else if decide (key ∈ dom (shape schema)) then None else config !! key.
Proof.
  unfold getExtraConfigs. rewrite list_to_set_Object_keys.
  rewrite (fold_entries_lookup
    (λ key value,
       if bool_decide (key ∈ dom (shape schema)) then None
       else if decide (key = "__proto__") then None else Some value)).
  - destruct (decide (key ∈ dom (shape schema))) as [Hin|Hin];
      [rewrite (bool_decide_eq_true_2 _ Hin)
      |rewrite (bool_decide_eq_false_2 _ Hin)];
      destruct (decide (key = _)); by destruct (config !! key).
  - intros r k v. destruct (bool_decide _); [done|]. apply assign_from_option.
Qed.

(** C7, on the code: an undeclared own key [__proto__] of the config is
    not in the extras view, because the assignment [extras[key] = value]
    reaches the inherited setter for that key. *)
Theorem getExtraConfigs_drops_proto_key :
  let schema : ZodSchema unit (gmap string JsValue) unit :=
    {| shape := {["host" := ()]}; parse := Parsed |} in
  let config : gmap string JsValue :=
    <["__proto__" := VString "x"]> {["host" := VString "h"]} in
  config !! "__proto__" = Some (VString "x")
  ∧ ("__proto__" ∉ dom (shape schema))
  ∧ getExtraConfigs config schema = ∅.
Proof. by vm_compute. Qed.

(** Apart from the key [__proto__], the extras view has exactly the entries
    of the config whose key the schema does not declare, with their
    values; when the schema declares every key of the config, it is the
    empty mapping. *)
Theorem getExtraConfigs_spec {F T E} (config : gmap string JsValue)
    (schema : ZodSchema F T E) :
  (∀ key value,
     getExtraConfigs config schema !! key = Some value
     ↔ key ≠ "__proto__" ∧ config !! key = Some value
       ∧ key ∉ dom (shape schema))
  ∧ (dom config ⊆ dom (shape schema) → getExtraConfigs config schema = ∅).
Proof.
  split.
  - intros key value. rewrite getExtraConfigs_lookup.
    destruct (decide (key = _)); [by split; [|intros [? _]]|].
    destruct (decide _) as [Hin|Hin]; split; try done.
    + by intros (_ & _ & ?).
    + by intros (_ & ? & _).
  - intros Hsub. apply map_eq. intros key.
    rewrite getExtraConfigs_lookup, lookup_empty.
    destruct (decide (key = _)); [done|].
    destruct (decide _) as [|Hnot]; [done|].
    apply not_elem_of_dom. set_solver.
Qed.

Lemma getExtraConfigs_spec_witness :
  let schema : ZodSchema unit (gmap string JsValue) unit :=
    {| shape := {["host" := ()]}; parse := Parsed |} in
  getExtraConfigs (<["debug" := VBool true]> {["host" := VString "test"]}) schema
    !! "debug" = Some (VBool true)
  ∧ getExtraConfigs {["host" := VString "test"]} schema = ∅.
Proof.
  intros schema. split.
  - apply (proj1 (getExtraConfigs_spec
                    (<["debug" := VBool true]> {["host" := VString "test"]})
                    schema)).
    repeat split; [done|]. by vm_compute.
  - apply (proj2 (getExtraConfigs_spec {["host" := VString "test"]} schema)).
    rewrite !dom_singleton_L. done.
Defined.

(** ** The collection loop *)

Section collect.
Variables prefix separator : string.
Let prefixUpper := toUpperCase prefix.
Implicit Types (env : ProcessEnv) (acc m : gmap string JsValue).

Lemma derives_empty_prefix envKey field :
  truthy prefixUpper = false →
  derives prefix separator envKey field
  ↔ toFieldName envKey separator = Normal field.
Proof.
  intros Hp. unfold derives. fold prefixUpper.
  destruct prefixUpper; [|done]. intuition congruence.
Qed.

Lemma derives_prefix envKey field :
  truthy prefixUpper = true →
  derives prefix separator envKey field
  ↔ startsWith envKey prefixUpper = true
    ∧ toFieldName (slice envKey (Z.of_nat (String.length prefixUpper)) None)
        separator = Normal field.
Proof.
  intros Hp. unfold derives. fold prefixUpper.
  destruct prefixUpper; [done|]. intuition congruence.
Qed.

(** What one round of the loop does with an entry whose value is defined. *)
Lemma collectEnvValues_loop_cons envKey value env acc :
  collectEnvValues_loop prefixUpper separator ((envKey, Some value) :: env) acc
  = if truthy prefixUpper && startsWith envKey prefixUpper then
      field ← toFieldName
                (slice envKey (Z.of_nat (String.length prefixUpper)) None)
                separator;
      collectEnvValues_loop prefixUpper separator env
        (assign field (VString value) acc)
    else if negb (truthy prefixUpper) then
      field ← toFieldName envKey separator;
      collectEnvValues_loop prefixUpper separator env
        (assign field (VString value) acc)
    else collectEnvValues_loop prefixUpper separator env acc.
Proof. done. Qed.

(** An entry whose name does not start with a non-empty prefix is skipped. *)
Lemma collectEnvValues_loop_skip envKey value env acc :
  truthy prefixUpper = true → startsWith envKey prefixUpper = false →
  collectEnvValues_loop prefixUpper separator ((envKey, Some value) :: env) acc
  = collectEnvValues_loop prefixUpper separator env acc.
Proof. intros Hp Hs. by rewrite collectEnvValues_loop_cons, Hp, Hs. Qed.

(** An entry that derives a field is assigned under it; when the loop
    completes normally past an entry that derives none, it has skipped it. *)
Lemma collectEnvValues_loop_round envKey value env acc :
  (¬ (∃ field, derives prefix separator envKey field)
   ∧ ∀ m, collectEnvValues_loop prefixUpper separator
            ((envKey, Some value) :: env) acc = Normal m →
          collectEnvValues_loop prefixUpper separator env acc = Normal m)
  ∨ (∃ field,
       derives prefix separator envKey field
       ∧ collectEnvValues_loop prefixUpper separator ((envKey, Some value) :: env) acc
         = collectEnvValues_loop prefixUpper separator env
             (assign field (VString value) acc)).
Proof.
  rewrite collectEnvValues_loop_cons.
  destruct (truthy prefixUpper) eqn:Hp; simpl.
  - destruct (startsWith envKey prefixUpper) eqn:Hs; simpl.
    + destruct (toFieldName _ separator) as [field| |] eqn:Hf; simpl.
      * right. exists field. by rewrite derives_prefix.
      * left. split; [|done].
        intros [field Hd]. apply derives_prefix in Hd as [_ Hd]; congruence.
      * left. split; [|done].
        intros [field Hd]. apply derives_prefix in Hd as [_ Hd]; congruence.
    + left. split; [|done].
      intros [field Hd]. apply derives_prefix in Hd as [Hd _]; congruence.
  - destruct (toFieldName envKey separator) as [field| |] eqn:Hf; simpl.
    + right. exists field. by rewrite derives_empty_prefix.
    + left. split; [|done].
      intros [field Hd]. apply derives_empty_prefix in Hd; congruence.
    + left. split; [|done].
      intros [field Hd]. apply derives_empty_prefix in Hd; congruence.
Qed.

Lemma collectEnvValues_loop_app env1 env2 acc :
  collectEnvValues_loop prefixUpper separator (env1 ++ env2) acc
  = collectEnvValues_loop prefixUpper separator env1 acc
    ≫= collectEnvValues_loop prefixUpper separator env2.
Proof.
  revert acc. induction env1 as [|[envKey [value|]] env1 IH]; intros acc.
  - done.
  - rewrite <- app_comm_cons, !collectEnvValues_loop_cons.
    destruct (truthy prefixUpper && startsWith envKey prefixUpper).
    { destruct (toFieldName _ separator); simpl; [apply IH | done | done]. }
    destruct (negb (truthy prefixUpper)); [|apply IH].
    destruct (toFieldName _ separator); simpl; [apply IH | done | done].
  - simpl. apply IH.
Qed.

Lemma derives_fun envKey field1 field2 :
  derives prefix separator envKey field1 →
  derives prefix separator envKey field2 → field1 = field2.
Proof. unfold derives. intuition congruence. Qed.

(** The loop leaves alone a field that no entry derives. *)
Lemma collectEnvValues_loop_keep env acc m field :
  collectEnvValues_loop prefixUpper separator env acc = Normal m →
  (∀ envKey value, (envKey, Some value) ∈ env →
     ¬ derives prefix separator envKey field) →
  m !! field = acc !! field.
Proof.
  revert acc. induction env as [|[envKey [value|]] env IH]; intros acc Hm Hno.
  - by injection Hm as ->.
  - assert (∀ k v, (k, Some v) ∈ env → ¬ derives prefix separator k field) as Hno'.
    { intros k v Hin. apply (Hno k v). by right. }
    destruct (collectEnvValues_loop_round envKey value env acc)
      as [[_ Hskip]|(field' & Hd & Hstep)].
    + apply IH; [by apply Hskip | done].
    + rewrite Hstep in Hm. rewrite (IH _ Hm Hno').
      apply lookup_assign_ne. intros ->. apply (Hno envKey value); [by left | done].
  - apply IH; [done|]. intros k v Hin. apply (Hno k v). by right.
Qed.

(** Every binding the loop adds is the value of an entry that derives its
    field. *)
Lemma collectEnvValues_loop_origin env acc m field w :
  collectEnvValues_loop prefixUpper separator env acc = Normal m →
  m !! field = Some w →
  acc !! field = Some w
  ∨ ∃ envKey value,
      (envKey, Some value) ∈ env ∧ derives prefix separator envKey field
      ∧ w = VString value.
Proof.
  revert acc. induction env as [|[envKey [value|]] env IH]; intros acc Hm Hw.
  - injection Hm as ->. by left.
  - destruct (collectEnvValues_loop_round envKey value env acc)
      as [[_ Hskip]|(field' & Hd & Hstep)].
    + destruct (IH acc (Hskip _ Hm) Hw) as [?|(k & v & Hin & ? & ?)]; [by left|].
      right. exists k, v. split; [by right | done].
    + rewrite Hstep in Hm.
      destruct (IH _ Hm Hw) as [Hacc|(k & v & Hin & ? & ?)].
      * apply lookup_assign_Some in Hacc as [(-> & _ & ->)|Hacc]; [|by left].
        right. exists envKey, value. split; [by left | done].
      * right. exists k, v. split; [by right | done].
  - destruct (IH acc Hm Hw) as [?|(k & v & Hin & ? & ?)]; [by left|].
    right. exists k, v. split; [by right | done].
Qed.

(** The loop never removes a binding. *)
Lemma collectEnvValues_loop_mono env acc m field :
  collectEnvValues_loop prefixUpper separator env acc = Normal m →
  is_Some (acc !! field) → is_Some (m !! field).
Proof.
  revert acc. induction env as [|[envKey [value|]] env IH]; intros acc Hm Hacc.
  - by injection Hm as <-.
  - destruct (collectEnvValues_loop_round envKey value env acc)
      as [[_ Hskip]|(field' & Hd & Hstep)].
    + by apply (IH acc); [apply Hskip|].
    + rewrite Hstep in Hm. apply (IH _ Hm).
      by apply lookup_assign_is_Some.
  - by apply (IH acc).
Qed.

(** The loop never binds the field [__proto__]. *)
Lemma collectEnvValues_loop_proto env acc m :
  collectEnvValues_loop prefixUpper separator env acc = Normal m →
  m !! "__proto__" = acc !! "__proto__".
Proof.
  revert acc. induction env as [|[envKey [value|]] env IH]; intros acc Hm.
  - by injection Hm as <-.
  - destruct (collectEnvValues_loop_round envKey value env acc)
      as [[_ Hskip]|(field' & Hd & Hstep)].
    + by apply IH, Hskip.
    + rewrite Hstep in Hm. rewrite (IH _ Hm). apply lookup_assign_proto.
  - by apply IH.
Qed.

(** When field-name derivation returns for every name, the loop returns. *)
Lemma collectEnvValues_loop_total env acc :
  (∀ envKey, ∃ field, toFieldName envKey separator = Normal field) →
  ∃ m, collectEnvValues_loop prefixUpper separator env acc = Normal m.
Proof.
  intros Htotal. revert acc.
  induction env as [|[envKey [value|]] env IH]; intros acc.
  - by exists acc.
  - rewrite collectEnvValues_loop_cons.
    destruct (truthy prefixUpper && startsWith envKey prefixUpper).
    { destruct (Htotal (slice envKey (Z.of_nat (String.length prefixUpper)) None))
        as [field ->]. apply IH. }
    destruct (negb (truthy prefixUpper)); [|apply IH].
    destruct (Htotal envKey) as [field ->]. apply IH.
  - apply IH.
Qed.

End collect.

Lemma bind_Normal {X A B} (a : A) (k : A → completion X B) :
  Normal a ≫= k = k a.
Proof. done. Qed.

(** ** Field-name derivation *)

(** Whether [toFieldName] returns depends on the separator alone. *)
Lemma toFieldName_returns_for_all envKey separator field :
  toFieldName envKey separator = Normal field →
  ∀ envKey', ∃ field', toFieldName envKey' separator = Normal field'.
Proof.
  unfold toFieldName. intros Hf envKey'.
  destruct (String.eqb separator "_"); [by eexists|].
  destruct (RegExp.compile separator); simpl in *; [by eexists | done | done].
Qed.

Lemma toFieldName_default_separator envKey :
  toFieldName envKey "_" = Normal (toLowerCase envKey).
Proof. done. Qed.

Lemma collectEnvValues_default_separator_returns env prefix :
  ∃ m, collectEnvValues env prefix "_" = Normal m.
Proof.
  apply collectEnvValues_loop_total. intros envKey.
  by exists (toLowerCase envKey).
Qed.

(** ** Letter case *)

Lemma map_chars_app f s1 s2 :
  map_chars f (s1 +:+ s2) = map_chars f s1 +:+ map_chars f s2.
Proof.
  induction s1 as [|c s1 IH]; [done|].
  rewrite app_cons. simpl. by rewrite IH, app_cons.
Qed.

Lemma upper_char_idemp c : upper_char (upper_char c) = upper_char c.
Proof. by destruct c as [[] [] [] [] [] [] [] []]. Qed.

Lemma toUpperCase_idemp s : toUpperCase (toUpperCase s) = toUpperCase s.
Proof.
  unfold toUpperCase. induction s as [|c s IH]; simpl; [done|].
  by rewrite upper_char_idemp, IH.
Qed.

(** A name that starts with the upper-cased prefix starts with the prefix,
    letter case ignored. *)
Lemma startsWith_upper_ignoring_case name prefix :
  startsWith name (toUpperCase prefix) = true →
  starts_with_ignoring_case name prefix = true.
Proof.
  intros [rest ->]%startsWith_spec. unfold starts_with_ignoring_case.
  apply startsWith_spec. exists (toUpperCase rest).
  unfold toUpperCase at 1. by rewrite map_chars_app, toUpperCase_idemp.
Qed.

(** ** Collisions *)

(** C8, on the code: two variables derive the field name [__proto__], and
    the candidate mapping binds it to neither value, because the assignment
    [envValues[field] = envValue] reaches the inherited setter for that
    field name. *)
Theorem collectEnvValues_proto_collision :
  let env := [("APP___PROTO__", Some "1"); ("APP___proto__", Some "2")] in
  derives "APP_" "_" "APP___PROTO__" "__proto__"
  ∧ derives "APP_" "_" "APP___proto__" "__proto__"
  ∧ collectEnvValues env "APP_" "_" = Normal ∅.
Proof. repeat split; right; by repeat split. Qed.

(** When the variables of the environment are visited in order and several
    of them derive the same field name, other than [__proto__], the
    candidate mapping binds the field name to the value of the one visited
    last. *)
Theorem collectEnvValues_last_wins
    (env1 env2 : ProcessEnv) (envKey value prefix separator field : string) :
  field ≠ "__proto__" →
  derives prefix separator envKey field →
  (∀ envKey' value', (envKey', Some value') ∈ env2 →
     ¬ derives prefix separator envKey' field) →
  ∃ m, collectEnvValues (env1 ++ (envKey, Some value) :: env2) prefix separator
       = Normal m
       ∧ m !! field = Some (VString value).
Proof.
  intros Hfield Hd Hlast.
  assert (∀ k, ∃ f, toFieldName k separator = Normal f) as Htotal.
  { destruct Hd as [[_ Hf]|(_ & _ & Hf)];
      by apply (toFieldName_returns_for_all _ _ _ Hf). }
  unfold collectEnvValues.
  destruct (collectEnvValues_loop_total prefix separator
              (env1 ++ (envKey, Some value) :: env2) ∅ Htotal) as [m Hm].
  exists m. split; [done|].
  rewrite collectEnvValues_loop_app in Hm.
  destruct (collectEnvValues_loop _ _ env1 ∅) as [m1| |]; [|done..].
  rewrite bind_Normal in Hm.
  destruct (collectEnvValues_loop_round prefix separator envKey value env2 m1)
    as [[Hno _]|(field' & Hd' & Hstep)].
  { destruct Hno. by exists field. }
  rewrite (derives_fun _ _ _ _ _ Hd' Hd) in Hstep. rewrite Hstep in Hm.
  rewrite (collectEnvValues_loop_keep _ _ _ _ _ _ Hm Hlast).
  by apply lookup_assign_eq.
Qed.

Lemma collectEnvValues_last_wins_witness :
  ∃ m, collectEnvValues
         [("APP_A-B", Some "first"); ("APP_A_B", Some "second"); ("PATH", Some "/bin")]
         "APP_" "-"
       = Normal m
       ∧ m !! "a_b" = Some (VString "second").
Proof.
  apply (collectEnvValues_last_wins
           [("APP_A-B", Some "first")] [("PATH", Some "/bin")]
           "APP_A_B" "second" "APP_" "-" "a_b").
  - done.
  - right. by repeat split.
  - intros k v Hin. apply list_elem_of_singleton in Hin. injection Hin as -> ->.
    intros [[Hp _]|(_ & Hs & _)]; done.
Defined.

(** ** The separator is read as a regular expression *)

Lemma atoms_of_plain_text separator :
  plain_text separator = true →
  ∃ pattern,
    RegExp.atoms_of separator = Some pattern
    ∧ length pattern = String.length separator
    ∧ ∀ s, RegExp.matches_at pattern s = startsWith s separator.
Proof.
  induction separator as [|c separator IH]; simpl.
  { intros _. exists []. repeat split. by intros []. }
  intros [Hc [pattern (Hp & Hlen & Hm)]%IH]%andb_prop.
  apply negb_true_iff in Hc.
  assert (bool_decide (c = "."%char) = false) as Hdot.
  { apply bool_decide_eq_false. by intros ->. }
  rewrite Hdot, Hc, Hp. exists (RegExp.Char c :: pattern).
  split; [done|]. split; [simpl; by rewrite Hlen|].
  intros [|d s]; [done|]. unfold startsWith. simpl. rewrite Hm.
  unfold startsWith. destruct (Ascii.ascii_dec c d) as [->|Hne].
  - by rewrite bool_decide_eq_true_2.
  - by rewrite bool_decide_eq_false_2.
Qed.

Lemma replace_scan_plain_text pattern separator replacement :
  length pattern = String.length separator →
  (∀ s, RegExp.matches_at pattern s = startsWith s separator) →
  ∀ s skip,
    RegExp.replace_scan pattern replacement skip s
    = replace_occurrences separator replacement skip s.
Proof.
  intros Hlen Hm. induction s as [|c s IH]; intros [|skip].
  - cbn [RegExp.replace_scan replace_occurrences]. rewrite Hm.
    destruct (startsWith _ separator); [|done].
    by destruct pattern, separator.
  - done.
  - cbn [RegExp.replace_scan replace_occurrences]. rewrite Hm.
    destruct (startsWith _ separator); [|by rewrite IH].
    destruct pattern, separator; simpl in Hlen; try done.
    + by rewrite IH.
    + rewrite IH. do 2 f_equal. lia.
  - simpl. apply IH.
Qed.

(** Where the code agrees with the words: on separators of plain text. *)
Lemma toFieldName_plain_text envKey separator :
  plain_text separator = true →
  toFieldName envKey separator
  = Normal (field_name_by_the_words envKey separator).
Proof.
  intros Hplain. unfold toFieldName, field_name_by_the_words.
  destruct (String.eqb separator "_"); [done|].
  destruct (atoms_of_plain_text separator Hplain) as [pattern (Hp & Hlen & Hm)].
  unfold RegExp.compile. rewrite Hp. simpl. unfold RegExp.replace.
  by rewrite (replace_scan_plain_text pattern separator).
Qed.

(** C4, on the code: a separator is compiled as a regular expression, not
    replaced letter for letter.  With the separator [.] every character of
    the name is replaced, where the words of the claim give [a_b]; with the
    separator [(] the derivation throws. *)
Theorem toFieldName_separator_as_pattern :
  toFieldName "A.B" "." = Normal "___"
  ∧ field_name_by_the_words "A.B" "." = "a_b"
  ∧ toFieldName "A(B" "(" = Throw RegExp.SyntaxError.
Proof. by repeat split. Qed.

(** C5, on the code: with the separator [(] and a variable to collect, the
    collection throws. *)
Theorem collectEnvValues_throws :
  collectEnvValues [("HOME", Some "/root")] EmptyString "("
  = Throw RegExp.SyntaxError.
Proof. done. Qed.

(** Where collection cannot fail: on separators of plain text. *)
Lemma collectEnvValues_plain_text_returns env prefix separator :
  plain_text separator = true →
  ∃ m, collectEnvValues env prefix separator = Normal m.
Proof.
  intros Hplain. apply collectEnvValues_loop_total. intros envKey.
  rewrite toFieldName_plain_text by done. by eexists.
Qed.

(** ** Selection by prefix *)

(** C1, as stated, fails: a lower-case name starts with the prefix (even
    letter for letter), and is left out of the candidate mapping. *)
Lemma collectEnvValues_lower_case_name_left_out :
  starts_with_ignoring_case "app_host" "app_" = true
  ∧ collectEnvValues [("app_host", Some "test")] "app_" "_" = Normal ∅.
Proof. by split. Qed.

(** C1 (amended): for a non-empty prefix and an entry with a defined value,
    the entry is left out when its name does not start with the upper-cased
    prefix (compared letter for letter), in particular when it does not
    start with the prefix even with letter case ignored: the candidate
    mapping is the one collected without the entry.  When its name starts
    with the upper-cased prefix, the entry is included: the field name
    derived from the name past the length of the upper-cased prefix is
    bound, when that field name is not [__proto__] (of which nothing is
    said).  Every binding of the candidate mapping is the value of such an
    entry.  With a separator of plain text the collection returns. *)
Theorem collectEnvValues_prefix_selection
    (env1 env2 : ProcessEnv) (envKey value prefix separator : string) :
  prefix ≠ EmptyString →
  let env := env1 ++ (envKey, Some value) :: env2 in
  let prefixUpper := toUpperCase prefix in
  let remainder := slice envKey (Z.of_nat (String.length prefixUpper)) None in
  (startsWith envKey prefixUpper = false →
     collectEnvValues env prefix separator
     = collectEnvValues (env1 ++ env2) prefix separator)
  ∧ (starts_with_ignoring_case envKey prefix = false →
     startsWith envKey prefixUpper = false)
  ∧ (startsWith envKey prefixUpper = true →
     ∀ m, collectEnvValues env prefix separator = Normal m →
       ∃ field, toFieldName remainder separator = Normal field
                ∧ (field ≠ "__proto__" → is_Some (m !! field)))
  ∧ (∀ m field w,
       collectEnvValues env prefix separator = Normal m →
       m !! field = Some w →
       ∃ name v,
         (name, Some v) ∈ env
         ∧ startsWith name prefixUpper = true
         ∧ toFieldName (slice name (Z.of_nat (String.length prefixUpper)) None)
             separator = Normal field
         ∧ w = VString v)
  ∧ (plain_text separator = true →
     ∃ m, collectEnvValues env prefix separator = Normal m).
Proof.
  intros Hprefix env prefixUpper remainder. subst env prefixUpper remainder.
  assert (truthy (toUpperCase prefix) = true) as Hp.
  { rewrite truthy_toUpperCase. by apply truthy_spec. }
  split; [|split; [|split; [|split]]];
    [| | | |by apply collectEnvValues_plain_text_returns].
  all: unfold collectEnvValues.
  - intros Hs. rewrite !collectEnvValues_loop_app.
    destruct (collectEnvValues_loop _ _ env1 ∅); simpl; [|done..].
    by apply collectEnvValues_loop_skip.
  - intros Hci. destruct (startsWith envKey (toUpperCase prefix)) eqn:Hs; [|done].
    apply startsWith_upper_ignoring_case in Hs. congruence.
  - intros Hs m. rewrite collectEnvValues_loop_app.
    destruct (collectEnvValues_loop _ _ env1 ∅) as [m1| |]; [|done..].
    rewrite bind_Normal, collectEnvValues_loop_cons, Hp, Hs.
    cbn [andb]. destruct (toFieldName _ separator) as [field| |]; [|done..].
    rewrite bind_Normal.
    intros Hm. exists field. split; [done|]. intros Hfield.
    apply (collectEnvValues_loop_mono _ _ _ _ _ _ Hm).
    by rewrite lookup_assign_eq.
  - intros m field w Hm Hw.
    destruct (collectEnvValues_loop_origin _ _ _ _ _ _ _ Hm Hw)
      as [Hempty|(name & v & Hin & Hd & ->)].
    { by rewrite lookup_empty in Hempty. }
    apply derives_prefix in Hd as [? ?]; [|done]. by exists name, v.
Qed.

Lemma collectEnvValues_prefix_selection_witness :
  collectEnvValues [("HOME", Some "/root"); ("APP_HOST", Some "test")] "APP_" "_"
  = collectEnvValues [("APP_HOST", Some "test")] "APP_" "_"
  ∧ ∃ field,
      toFieldName "HOST" "_" = Normal field
      ∧ (field ≠ "__proto__" →
         is_Some (({["host" := VString "test"]} : gmap string JsValue) !! field)).
Proof.
  split.
  - apply (proj1 (collectEnvValues_prefix_selection
                    [] [("APP_HOST", Some "test")] "HOME" "/root" "APP_" "_"
                    ltac:(done))).
    done.
  - apply (proj1 (proj2 (proj2 (collectEnvValues_prefix_selection
                    [("HOME", Some "/root")] [] "APP_HOST" "test" "APP_" "_"
                    ltac:(done))))); reflexivity.
Defined.

(** ** Loading *)

(** When the collection returns, [fromEnv] fails exactly when the schema
    rejects the candidate mapping, with the schema's error. *)
Lemma fromEnv_collected {F T E} env (schema : ZodSchema F T E) options m :
  collectEnvValues env (default EmptyString (prefix options))
    (default "_" (separator options)) = Normal m →
  fromEnv env schema options
  = match parse schema m with
    | Parsed config => Normal config
    | Rejected e => Throw (ZodError e)
    end.
Proof. unfold fromEnv. by intros ->. Qed.

Lemma fromEnv_plain_text {F T E} env (schema : ZodSchema F T E) options :
  plain_text (default "_" (separator options)) = true →
  ∃ m,
    collectEnvValues env (default EmptyString (prefix options))
      (default "_" (separator options)) = Normal m
    ∧ ∀ x, fromEnv env schema options = Throw x
           ↔ ∃ e, parse schema m = Rejected e ∧ x = ZodError e.
Proof.
  intros Hplain.
  destruct (collectEnvValues_plain_text_returns env
    (default EmptyString (prefix options)) _ Hplain) as [m Hm].
  exists m. split; [done|]. intros x. rewrite (fromEnv_collected _ _ _ _ Hm).
  destruct (parse schema m) as [config|e].
  - split; [done | by intros (? & ? & _)].
  - split.
    + intros [= <-]. by exists e.
    + by intros (e' & [= <-] & ->).
Qed.

(** C6, on the code: with the separator [(] and a variable to collect,
    [fromEnv] throws the RegExp constructor's SyntaxError although the
    schema rejects no mapping. *)
Theorem fromEnv_throws_without_rejection :
  let schema : ZodSchema unit (gmap string JsValue) unit :=
    {| shape := ∅; parse := Parsed |} in
  fromEnv [("HOME", Some "/root")] schema
    {| prefix := None; separator := Some "(" |}
  = Throw (RegExpError RegExp.SyntaxError).
Proof. done. Qed.

(** ** Settings *)

(** C10: [loadConfig] returns what [fromEnv] returns on the same schema and
    options; [createSettings] loads with no options, whatever its own
    options are, and copies [envFile] and [caseSensitive] (or their defaults)
    into the record it returns. *)
Theorem settings_are_fromEnv {F T E} (env : ProcessEnv) (schema : ZodSchema F T E) :
  (∀ options, loadConfig env schema options = fromEnv env schema options)
  ∧ (∀ options,
       config <$> createSettings env schema options
       = fromEnv env schema no_options)
  ∧ (∀ options,
       createSettings env schema options
       = (λ parsed,
            {| config := parsed;
               envFile := default ".env" (options_envFile options);
               caseSensitive := default false (options_caseSensitive options) |})
         <$> fromEnv env schema no_options).
Proof.
  repeat split; intros options; unfold createSettings;
    by destruct (fromEnv env schema no_options).
Qed.

(** ** What the operations leave alone *)

Section store.
Import Store.
Implicit Types (σ : store) (r : loc).

Lemma preserved_refl σ : preserved σ σ.
Proof. by split. Qed.

Lemma preserved_trans σ1 σ2 σ3 :
  preserved σ1 σ2 → preserved σ2 σ3 → preserved σ1 σ3.
Proof.
  intros [Henv12 Hobj12] [Henv23 Hobj23]. split; [congruence|].
  intros l o Hl. by apply Hobj23, Hobj12.
Qed.

(** Filling an object that did not exist preserves the store. *)
Lemma preserved_fresh σ r o :
  objects σ !! r = None →
  preserved σ {| objects := <[r := o]> (objects σ); process_env := process_env σ |}.
Proof.
  intros Hr. split; [done|]. intros l o' Hl. simpl.
  rewrite lookup_insert_ne; [done|]. congruence.
Qed.

Lemma contents_fresh σ r o :
  contents {| objects := <[r := o]> (objects σ); process_env := process_env σ |} r
  = o.
Proof. unfold contents. simpl. by rewrite lookup_insert_eq. Qed.

Lemma contents_other σ r o l :
  objects σ !! r = None →
  contents {| objects := <[r := o]> (objects σ); process_env := process_env σ |} l
  = contents σ l ∨ (l = r ∧ contents σ l = ∅).
Proof.
  intros Hr. unfold contents. simpl. destruct (decide (l = r)) as [->|Hne].
  - right. by rewrite Hr.
  - left. by rewrite lookup_insert_ne.
Qed.

Lemma store_insert_id σ r acc :
  objects σ !! r = Some acc →
  {| objects := <[r := acc]> (objects σ); process_env := process_env σ |} = σ.
Proof. intros Hr. destruct σ. simpl in *. by rewrite insert_id. Qed.

(** A loop of assignments to [r] leaves the store with [r] refilled. *)
Lemma for_of_assign {X} (h : string → JsValue → option JsValue)
    (f : gmap string JsValue → string * JsValue → gmap string JsValue)
    (body : string * JsValue → M X unit) r entries σ acc :
  (∀ acc key value,
     f acc (key, value) = from_option (λ w, assign key w acc) acc (h key value)) →
  (∀ key value,
     body (key, value)
     = from_option (λ w, set_property r key w) (ret ()) (h key value)) →
  objects σ !! r = Some acc →
  for_of entries body σ
  = (Normal (), {| objects := <[r := foldl f acc entries]> (objects σ);
                   process_env := process_env σ |}).
Proof.
  intros Hf Hbody. revert σ acc.
  induction entries as [|[key value] entries IH]; intros σ acc Hr.
  { simpl. unfold ret. by rewrite store_insert_id. }
  cbn [for_of foldl]. unfold bind at 1. rewrite Hbody, Hf.
  destruct (h key value) as [w|]; simpl.
  - erewrite IH; [|simpl; by rewrite lookup_alter_eq, Hr].
    simpl. by rewrite insert_alter_eq.
  - by apply IH.
Qed.

Lemma collectEnvValues_round_some r prefixUpper separator envKey value :
  collectEnvValues_round r prefixUpper separator (envKey, Some value)
  = if truthy prefixUpper && startsWith envKey prefixUpper then
      bind (lift (toFieldName
                    (slice envKey (Z.of_nat (String.length prefixUpper)) None)
                    separator))
           (λ field, set_property r field (VString value))
    else if negb (truthy prefixUpper) then
      bind (lift (toFieldName envKey separator))
           (λ field, set_property r field (VString value))
    else ret ().
Proof. done. Qed.

(** The loop of [collectEnvValues] over the store runs the loop of the
    collection on the contents of [r]. *)
Lemma for_of_collect r prefixUpper separator entries σ acc :
  objects σ !! r = Some acc →
  ∃ acc',
    for_of entries (collectEnvValues_round r prefixUpper separator) σ
    = ((λ _, ()) <$> collectEnvValues_loop prefixUpper separator entries acc,
       {| objects := <[r := acc']> (objects σ); process_env := process_env σ |})
    ∧ ∀ m, collectEnvValues_loop prefixUpper separator entries acc = Normal m →
           acc' = m.
Proof.
  revert σ acc.
  induction entries as [|[envKey [value|]] entries IH]; intros σ acc Hr.
  - exists acc. split; [|by intros m [= <-]].
    simpl. unfold ret. by rewrite store_insert_id.
  - assert (∀ field,
      ∃ acc',
        for_of entries (collectEnvValues_round r prefixUpper separator)
          {| objects := alter (assign field (VString value)) r (objects σ);
             process_env := process_env σ |}
        = ((λ _, ()) <$> collectEnvValues_loop prefixUpper separator entries
                           (assign field (VString value) acc),
           {| objects := <[r := acc']> (objects σ); process_env := process_env σ |})
        ∧ ∀ m, collectEnvValues_loop prefixUpper separator entries
                 (assign field (VString value) acc) = Normal m → acc' = m)
      as Hassign.
    { intros field.
      destruct (IH {| objects := alter (assign field (VString value)) r (objects σ);
                      process_env := process_env σ |}
                   (assign field (VString value) acc)) as [acc' [Hrun Hacc']].
      { simpl. by rewrite lookup_alter_eq, Hr. }
      exists acc'. split; [|done]. rewrite Hrun. simpl.
      by rewrite insert_alter_eq. }
    assert (∀ (c : completion RegExp.syntax_error string),
      (∀ field, c ≠ Normal field) →
      ∃ acc', ((λ _, ()) <$> (c ≫= λ _ : string, Normal acc), σ)
        = ((λ _, ()) <$> (c ≫= λ field, collectEnvValues_loop prefixUpper separator
                             entries (assign field (VString value) acc)),
           {| objects := <[r := acc']> (objects σ); process_env := process_env σ |})
        ∧ ∀ m, (c ≫= λ field, collectEnvValues_loop prefixUpper separator
                  entries (assign field (VString value) acc)) = Normal m → acc' = m)
      as Hthrow.
    { intros c Hc. exists acc. rewrite store_insert_id by done.
      destruct c as [field| |]; [by destruct (Hc field) | done | done]. }
    cbn [for_of collectEnvValues_loop].
    unfold bind at 1. rewrite collectEnvValues_round_some.
    destruct (truthy prefixUpper && startsWith envKey prefixUpper).
    { unfold bind at 1, lift.
      destruct (toFieldName _ separator) as [field| |] eqn:Hfield.
      - apply Hassign.
      - by apply (Hthrow (Throw x)).
      - by apply (Hthrow Unmodelled). }
    destruct (negb (truthy prefixUpper)).
    { unfold bind at 1, lift.
      destruct (toFieldName _ separator) as [field| |] eqn:Hfield.
      - apply Hassign.
      - by apply (Hthrow (Throw x)).
      - by apply (Hthrow Unmodelled). }
    by apply IH.
  - cbn [for_of collectEnvValues_loop]. by apply IH.
Qed.

End store.

(** The three operations that build a mapping, run on a store. *)

Lemma store_collectEnvValues_run prefix separator σ :
  ∃ r acc,
    Store.objects σ !! r = None
    ∧ Store.collectEnvValues prefix separator σ
      = ((λ _, r) <$> collectEnvValues (Store.process_env σ) prefix separator,
         {| Store.objects := <[r := acc]> (Store.objects σ);
            Store.process_env := Store.process_env σ |})
    ∧ ∀ m, collectEnvValues (Store.process_env σ) prefix separator = Normal m →
           acc = m.
Proof.
  set (r := fresh (dom (Store.objects σ))).
  assert (Store.objects σ !! r = None) as Hfresh.
  { apply not_elem_of_dom, is_fresh. }
  destruct (for_of_collect r (toUpperCase prefix) separator (Store.process_env σ)
              {| Store.objects := <[r := ∅]> (Store.objects σ);
                 Store.process_env := Store.process_env σ |} ∅)
    as [acc [Hrun Hacc]].
  { simpl. by rewrite lookup_insert_eq. }
  exists r, acc. split; [done|]. split; [|done].
  unfold Store.collectEnvValues, Store.bind at 1 2 3, Store.new_object,
    Store.env_entries.
  fold r. cbn [Store.process_env]. rewrite Hrun. cbn [Store.objects Store.process_env].
  rewrite insert_insert_eq. unfold collectEnvValues.
  destruct (collectEnvValues_loop (toUpperCase prefix) separator
              (Store.process_env σ) ∅); reflexivity.
Qed.

Lemma store_getPrintableConfig_run {X} config σ :
  ∃ r,
    Store.objects σ !! r = None
    ∧ Store.getPrintableConfig (X:=X) config σ
      = (Normal r,
         {| Store.objects :=
              <[r := getPrintableConfig (Store.contents σ config)]> (Store.objects σ);
            Store.process_env := Store.process_env σ |}).
Proof.
  set (r := fresh (dom (Store.objects σ))).
  assert (Store.objects σ !! r = None) as Hfresh.
  { apply not_elem_of_dom, is_fresh. }
  exists r. split; [done|].
  unfold Store.getPrintableConfig, Store.bind at 1 2 3, Store.new_object,
    Store.entries_of.
  fold r.
  erewrite (for_of_assign
    (λ key value, Some (if isSensitive key then VString (maskValue value) else value))
    (λ result '(key, value),
       assign key (if isSensitive key then VString (maskValue value) else value)
         result));
    [| done | done | simpl; apply lookup_insert_eq].
  cbn [Store.objects Store.process_env Store.ret]. rewrite insert_insert_eq.
  do 3 f_equal. unfold getPrintableConfig. f_equal.
  destruct (contents_other σ r ∅ config Hfresh) as [->|[-> Hempty]]; [done|].
  by rewrite contents_fresh, Hempty.
Qed.

Lemma store_getExtraConfigs_run {X F T E} config shape_at σ
    (schema : ZodSchema F T E) :
  dom (shape schema) = dom (Store.contents σ shape_at) →
  ∃ r,
    Store.objects σ !! r = None
    ∧ Store.getExtraConfigs (X:=X) config shape_at σ
      = (Normal r,
         {| Store.objects :=
              <[r := getExtraConfigs (Store.contents σ config) schema]>
                (Store.objects σ);
            Store.process_env := Store.process_env σ |}).
Proof.
  intros Hshape.
  set (r := fresh (dom (Store.objects σ))).
  assert (Store.objects σ !! r = None) as Hfresh.
  { apply not_elem_of_dom, is_fresh. }
  exists r. split; [done|].
  unfold Store.getExtraConfigs, Store.bind at 1 2 3 4, Store.new_object,
    Store.entries_of, Store.keys_of.
  fold r.
  erewrite (for_of_assign
    (λ key value,
       if negb (bool_decide (key ∈ (list_to_set
                 (Object_keys (Store.contents σ shape_at)) : gset string)))
       then Some value else None)
    (λ extras '(key, value),
       if negb (bool_decide (key ∈ (list_to_set
                 (Object_keys (Store.contents σ shape_at)) : gset string)))
       then assign key value extras else extras));
    [| intros acc key value; by destruct (negb _)
     | intros key value; by destruct (negb _)
     | simpl; apply lookup_insert_eq].
  cbn [Store.objects Store.process_env Store.ret]. rewrite insert_insert_eq.
  do 3 f_equal. unfold getExtraConfigs.
  rewrite !list_to_set_Object_keys, Hshape. f_equal.
  destruct (contents_other σ r ∅ config Hfresh) as [->|[-> Hempty]]; [done|].
  by rewrite contents_fresh, Hempty.
Qed.

Section frame.
Context {E : Type} (parse : Store.parser E).

(** The schema's validator is a black box; it is taken to leave existing
    objects and the environment alone. *)
Hypothesis parse_preserves :
  ∀ candidate σ, Store.preserved σ (parse candidate σ).2.

Lemma store_fromEnv_run options σ :
  ∃ r acc,
    let σ1 := {| Store.objects := <[r := acc]> (Store.objects σ);
                 Store.process_env := Store.process_env σ |} in
    Store.objects σ !! r = None
    ∧ (∀ m, collectEnvValues (Store.process_env σ)
              (default EmptyString (prefix options))
              (default "_" (separator options)) = Normal m →
         acc = m
         ∧ Store.fromEnv parse options σ = Store.rethrow ZodError (parse r) σ1)
    ∧ Store.preserved σ1 (Store.fromEnv parse options σ).2.
Proof.
  destruct (store_collectEnvValues_run (default EmptyString (prefix options))
              (default "_" (separator options)) σ) as (r & acc & Hfresh & Hrun & Hacc).
  exists r, acc. cbn zeta. split; [done|].
  assert (Store.fromEnv parse options σ
          = match collectEnvValues (Store.process_env σ)
                    (default EmptyString (prefix options))
                    (default "_" (separator options)) with
            | Normal _ =>
                Store.rethrow ZodError (parse r)
                  {| Store.objects := <[r := acc]> (Store.objects σ);
                     Store.process_env := Store.process_env σ |}
            | Throw x =>
                (Throw (RegExpError x),
                 {| Store.objects := <[r := acc]> (Store.objects σ);
                    Store.process_env := Store.process_env σ |})
            | Unmodelled =>
                (Unmodelled,
                 {| Store.objects := <[r := acc]> (Store.objects σ);
                    Store.process_env := Store.process_env σ |})
            end) as ->.
  { unfold Store.fromEnv, Store.bind. unfold Store.rethrow at 1. rewrite Hrun.
    by destruct (collectEnvValues _ _ _). }
  destruct (collectEnvValues _ _ _) as [m| |].
  - split.
    + intros ? [= <-]. split; [by apply Hacc | done].
    + unfold Store.rethrow. specialize (parse_preserves r
        {| Store.objects := <[r := acc]> (Store.objects σ);
           Store.process_env := Store.process_env σ |}).
      by destruct (parse r _) as [[?| |] ?].
  - split; [done | apply preserved_refl].
  - split; [done | apply preserved_refl].
Qed.

(** C9: run on a store, each operation leaves the environment and every
    existing object (the input config, the schema's shape) as it was and
    returns a new object; the contents of the new object are the function
    of the inputs that the operation computes: the candidate mapping of
    the environment, the printable view and the extras of the contents of
    the config.  [fromEnv] hands the validator a new object that holds the
    candidate mapping, in a store otherwise unchanged. *)
Theorem operations_preserve_the_store {X F T} (σ : Store.store) :
  (∀ prefix separator,
     let run := Store.collectEnvValues prefix separator σ in
     Store.preserved σ run.2
     ∧ Store.contents run.2 <$> run.1
       = collectEnvValues (Store.process_env σ) prefix separator
     ∧ ∀ r, run.1 = Normal r → Store.objects σ !! r = None)
  ∧ (∀ options,
       Store.preserved σ (Store.fromEnv parse options σ).2
       ∧ ∀ m, collectEnvValues (Store.process_env σ)
                (default EmptyString (prefix options))
                (default "_" (separator options)) = Normal m →
          ∃ r, Store.objects σ !! r = None
               ∧ Store.fromEnv parse options σ
                 = Store.rethrow ZodError (parse r)
                     {| Store.objects := <[r := m]> (Store.objects σ);
                        Store.process_env := Store.process_env σ |})
  ∧ (∀ config,
       let run := Store.getPrintableConfig (X:=X) config σ in
       Store.preserved σ run.2
       ∧ ∃ r, run.1 = Normal r
              ∧ Store.objects σ !! r = None
              ∧ Store.contents run.2 r
                = getPrintableConfig (Store.contents σ config))
  ∧ (∀ config shape_at (schema : ZodSchema F T E),
       dom (shape schema) = dom (Store.contents σ shape_at) →
       let run := Store.getExtraConfigs (X:=X) config shape_at σ in
       Store.preserved σ run.2
       ∧ ∃ r, run.1 = Normal r
              ∧ Store.objects σ !! r = None
              ∧ Store.contents run.2 r
                = getExtraConfigs (Store.contents σ config) schema).
Proof.
  repeat apply conj.
  - intros prefix separator run. subst run.
    destruct (store_collectEnvValues_run prefix separator σ)
      as (r & acc & Hfresh & -> & Hacc).
    cbn [fst snd]. split; [by apply preserved_fresh|].
    destruct (collectEnvValues _ _ _) as [m| |]; simpl; [|done..].
    rewrite contents_fresh, (Hacc m eq_refl). split; [done|]. by intros ? [= <-].
  - intros options.
    destruct (store_fromEnv_run options σ) as (r & acc & Hfresh & Hrun & Hkept).
    cbn zeta in Hkept. split.
    + eapply preserved_trans; [|exact Hkept]. by apply preserved_fresh.
    + intros m Hm. destruct (Hrun m Hm) as [-> Heq]. by exists r.
  - intros config run. subst run.
    destruct (store_getPrintableConfig_run (X:=X) config σ) as (r & Hfresh & ->).
    cbn [fst snd]. split; [by apply preserved_fresh|].
    exists r. by rewrite contents_fresh.
  - intros config shape_at schema Hshape run. subst run.
    destruct (store_getExtraConfigs_run (X:=X) config shape_at σ schema Hshape)
      as (r & Hfresh & ->).
    cbn [fst snd]. split; [by apply preserved_fresh|].
    exists r. by rewrite contents_fresh.
Qed.

End frame.

Lemma operations_preserve_the_store_witness :
  let σ := {| Store.objects := {[1%positive := {["api_key" := VString "secret123"]}]};
              Store.process_env := [("APP_HOST", Some "test")] |} in
  Store.preserved σ
    (Store.fromEnv (E:=unit) (λ candidate, Store.ret candidate)
       {| prefix := Some "APP_"; separator := None |} σ).2.
Proof.
  intros σ.
  apply (proj1 (proj1 (proj2 (operations_preserve_the_store
    (X:=unit) (F:=unit) (T:=unit) (λ candidate, Store.ret candidate)
    (λ _ σ', conj eq_refl (λ _ _ H, H)) σ))
    {| prefix := Some "APP_"; separator := None |})).
Defined.

(** * Further properties of the config mapper *)

(** ** Field names are normalized *)

Lemma lower_char_idemp c : lower_char (lower_char c) = lower_char c.
Proof. by destruct c as [[] [] [] [] [] [] [] []]. Qed.

Lemma toLowerCase_idemp s : toLowerCase (toLowerCase s) = toLowerCase s.
Proof.
  unfold toLowerCase. induction s as [|c s IH]; simpl; [done|].
  by rewrite lower_char_idemp, IH.
Qed.

Lemma toFieldName_lower_case envKey separator field :
  toFieldName envKey separator = Normal field → toLowerCase field = field.
Proof.
  unfold toFieldName. destruct (String.eqb separator "_").
  - intros [= <-]. apply toLowerCase_idemp.
  - destruct (RegExp.compile separator); simpl; [|done..].
    intros [= <-]. apply toLowerCase_idemp.
Qed.

Lemma derives_lower_case prefix separator envKey field :
  derives prefix separator envKey field → toLowerCase field = field.
Proof.
  intros [[_ Hf]|(_ & _ & Hf)]; by apply (toFieldName_lower_case _ _ _ Hf).
Qed.

(** The candidate mapping has lower-case keys and string values only:
    every key is left unchanged by [toLowerCase], and every value is the
    string of a variable of the environment. *)
Theorem collectEnvValues_keys_lower_case
    (env : ProcessEnv) (prefix separator : string) (m : gmap string JsValue) :
  collectEnvValues env prefix separator = Normal m →
  ∀ field w, m !! field = Some w →
    toLowerCase field = field
    ∧ ∃ name value, (name, Some value) ∈ env ∧ w = VString value.
Proof.
  intros Hm field w Hw.
  destruct (collectEnvValues_loop_origin _ _ _ _ _ _ _ Hm Hw)
    as [Hempty|(name & value & Hin & Hd & ->)].
  { by rewrite lookup_empty in Hempty. }
  split; [by apply (derives_lower_case _ _ _ _ Hd) | by exists name, value].
Qed.

Lemma collectEnvValues_keys_lower_case_witness :
  toLowerCase "host" = "host"
  ∧ ∃ name value,
      (name, Some value) ∈ [("APP_HOST", Some "test")] ∧ VString "test" = VString value.
Proof.
  apply (collectEnvValues_keys_lower_case
           [("APP_HOST", Some "test")] "APP_" "_" {["host" := VString "test"]});
    reflexivity.
Defined.

(** ** Collection without a prefix *)

(** An entry that derives a field is bound when the loop returns. *)
Lemma collectEnvValues_loop_bound prefix separator env acc m envKey value field :
  collectEnvValues_loop (toUpperCase prefix) separator env acc = Normal m →
  (envKey, Some value) ∈ env →
  derives prefix separator envKey field →
  field ≠ "__proto__" →
  is_Some (m !! field).
Proof.
  intros Hm (env1 & env2 & ->)%list_elem_of_split Hd Hfield.
  rewrite collectEnvValues_loop_app in Hm.
  destruct (collectEnvValues_loop _ _ env1 acc) as [m1| |]; [|done..].
  rewrite bind_Normal in Hm.
  destruct (collectEnvValues_loop_round prefix separator envKey value env2 m1)
    as [[Hno _]|(field' & Hd' & Hstep)].
  { destruct Hno. by exists field. }
  rewrite (derives_fun _ _ _ _ _ Hd' Hd) in Hstep. rewrite Hstep in Hm.
  apply (collectEnvValues_loop_mono _ _ _ _ _ _ Hm).
  by rewrite lookup_assign_eq.
Qed.

(** With the empty prefix and a separator of plain text, the collection
    returns, and the candidate mapping has exactly the field names, other
    than [__proto__], of the variables whose value is defined: no other
    variable of the environment is left out. *)
Theorem collectEnvValues_no_prefix (env : ProcessEnv) (separator : string) :
  plain_text separator = true →
  ∃ m, collectEnvValues env EmptyString separator = Normal m
       ∧ ∀ field,
           field ∈ dom m
           ↔ field ≠ "__proto__"
             ∧ ∃ name value,
                 (name, Some value) ∈ env
                 ∧ field = field_name_by_the_words name separator.
Proof.
  intros Hplain.
  destruct (collectEnvValues_plain_text_returns env EmptyString separator Hplain)
    as [m Hm].
  exists m. split; [done|]. intros field. rewrite elem_of_dom. split.
  - intros [w Hw]. split.
    { intros ->. apply collectEnvValues_loop_proto in Hm.
      by rewrite Hw, lookup_empty in Hm. }
    destruct (collectEnvValues_loop_origin _ _ _ _ _ _ _ Hm Hw)
      as [Hempty|(name & value & Hin & Hd & ->)].
    { by rewrite lookup_empty in Hempty. }
    exists name, value. split; [done|].
    apply derives_empty_prefix in Hd; [|done].
    rewrite toFieldName_plain_text in Hd by done. by injection Hd as <-.
  - intros (Hfield & name & value & Hin & ->).
    apply (collectEnvValues_loop_bound EmptyString separator env ∅ m name value);
      [done| done | | done].
    apply derives_empty_prefix; [done|]. by apply toFieldName_plain_text.
Qed.

Lemma collectEnvValues_no_prefix_witness :
  ∃ m, collectEnvValues
         [("HOME", Some "/root"); ("__PROTO__", Some "x"); ("Path", None)]
         EmptyString "_"
       = Normal m
       ∧ ∀ field,
           field ∈ dom m
           ↔ field ≠ "__proto__"
             ∧ ∃ name value,
                 (name, Some value)
                 ∈ [("HOME", Some "/root"); ("__PROTO__", Some "x"); ("Path", None)]
                 ∧ field = field_name_by_the_words name "_".
Proof.
  apply (collectEnvValues_no_prefix
           [("HOME", Some "/root"); ("__PROTO__", Some "x"); ("Path", None)]
           "_" eq_refl).
Defined.

(** ** The order of the environment *)

Section order.
Variables prefix separator : string.
Let prefixUpper := toUpperCase prefix.
Implicit Types (env : ProcessEnv) (acc : gmap string JsValue).

Lemma collectEnvValues_loop_step entry env acc :
  collectEnvValues_loop prefixUpper separator (entry :: env) acc
  = collect_step prefixUpper separator entry
    ≫= λ step, collectEnvValues_loop prefixUpper separator env (assign_step step acc).
Proof.
  destruct entry as [envKey [value|]]; [|done].
  cbn [collectEnvValues_loop collect_step].
  destruct (truthy prefixUpper && startsWith envKey prefixUpper).
  { by destruct (toFieldName _ separator). }
  destruct (negb (truthy prefixUpper)); [|done].
  by destruct (toFieldName _ separator).
Qed.

Lemma derived_field_step entry :
  derived_field prefix separator entry
  = match collect_step prefixUpper separator entry with
    | Normal (Some (field, _)) => Some field
    | _ => None
    end.
Proof.
  destruct entry as [envKey [value|]]; [|done].
  unfold derived_field, collect_step. fold prefixUpper.
  destruct (truthy prefixUpper && startsWith envKey prefixUpper).
  { by destruct (toFieldName _ separator). }
  destruct (negb (truthy prefixUpper)); [|done].
  by destruct (toFieldName _ separator).
Qed.

(** Whether [toFieldName] returns, and what it throws, depends on the
    separator alone. *)
Lemma toFieldName_abrupt {B} envKey envKey'
    (k k' : string → completion RegExp.syntax_error B) :
  (∀ field, toFieldName envKey separator ≠ Normal field) →
  toFieldName envKey' separator ≫= k' = toFieldName envKey separator ≫= k.
Proof.
  unfold toFieldName. destruct (String.eqb separator "_").
  { intros Hno. by destruct (Hno (toLowerCase envKey)). }
  destruct (RegExp.compile separator) as [re| |]; [|done..].
  intros Hno. by destruct (Hno (toLowerCase (RegExp.replace re "_" envKey))).
Qed.

(** A round skips its entry or continues with [toFieldName] on a name. *)
Lemma collect_step_cases entry :
  collect_step prefixUpper separator entry = Normal None
  ∨ ∃ name value,
      collect_step prefixUpper separator entry
      = toFieldName name separator ≫= λ field, Normal (Some (field, value)).
Proof.
  destruct entry as [envKey [value|]]; [|by left]. unfold collect_step.
  destruct (truthy prefixUpper && startsWith envKey prefixUpper); [by eauto|].
  destruct (negb (truthy prefixUpper)); [by eauto | by left].
Qed.

(** When a round completes abruptly, every other round skips its entry or
    completes in the same way. *)
Lemma collect_step_abrupt entry entry' :
  (∀ step, collect_step prefixUpper separator entry ≠ Normal step) →
  collect_step prefixUpper separator entry' = Normal None
  ∨ collect_step prefixUpper separator entry'
    = collect_step prefixUpper separator entry.
Proof.
  intros Hno.
  destruct (collect_step_cases entry) as [Hskip|(name & value & Hname)].
  { by destruct (Hno None). }
  destruct (collect_step_cases entry') as [?|(name' & value' & Hname')]; [by left|].
  right. rewrite Hname, Hname'. apply toFieldName_abrupt.
  intros field Hf. rewrite Hname, Hf in Hno. by destruct (Hno (Some (field, value))).
Qed.

Lemma collectEnvValues_loop_swap x y env acc :
  collision_free prefix separator (y :: x :: env) →
  collectEnvValues_loop prefixUpper separator (y :: x :: env) acc
  = collectEnvValues_loop prefixUpper separator (x :: y :: env) acc.
Proof.
  unfold collision_free. cbn [omap list_omap]. rewrite !derived_field_step.
  intros Hfree. rewrite !collectEnvValues_loop_step.
  destruct (collect_step prefixUpper separator x) as [stepx| |] eqn:Hx.
  - destruct (collect_step prefixUpper separator y) as [stepy| |] eqn:Hy.
    + rewrite !bind_Normal, !collectEnvValues_loop_step, Hx, Hy, !bind_Normal.
      destruct stepx as [[fx vx]|], stepy as [[fy vy]|]; try done.
      cbn [assign_step]. rewrite assign_assign_ne; [done|].
      apply NoDup_cons in Hfree as [Hne _]. intros ->. apply Hne. by left.
    + rewrite bind_Normal, collectEnvValues_loop_step, Hy.
      destruct (collect_step_abrupt y x) as [Hskip|Hsame]; [by rewrite Hy| |].
      * rewrite Hx in Hskip. by injection Hskip as ->.
      * congruence.
    + rewrite bind_Normal, collectEnvValues_loop_step, Hy.
      destruct (collect_step_abrupt y x) as [Hskip|Hsame]; [by rewrite Hy| |].
      * rewrite Hx in Hskip. by injection Hskip as ->.
      * congruence.
  - destruct (collect_step_abrupt x y) as [Hskip|Hsame]; [by rewrite Hx| |].
    + by rewrite Hskip, bind_Normal, collectEnvValues_loop_step, Hx.
    + by rewrite Hsame, Hx.
  - destruct (collect_step_abrupt x y) as [Hskip|Hsame]; [by rewrite Hx| |].
    + by rewrite Hskip, bind_Normal, collectEnvValues_loop_step, Hx.
    + by rewrite Hsame, Hx.
Qed.

Lemma collectEnvValues_loop_Permutation env env' acc :
  env ≡ₚ env' →
  collision_free prefix separator env →
  collectEnvValues_loop prefixUpper separator env acc
  = collectEnvValues_loop prefixUpper separator env' acc.
Proof.
  intros Hperm. revert acc.
  induction Hperm as [|x env env' Hperm IH|x y env|env1 env2 env3 H12 IH12 H23 IH23];
    intros acc Hfree.
  - done.
  - rewrite !collectEnvValues_loop_step.
    destruct (collect_step prefixUpper separator x) as [step| |]; [|done..].
    rewrite !bind_Normal. apply IH.
    unfold collision_free in *. cbn [omap list_omap] in Hfree.
    destruct (derived_field prefix separator x); [|done].
    by apply NoDup_cons in Hfree as [_ ?].
  - by apply collectEnvValues_loop_swap.
  - rewrite IH12 by done. apply IH23.
    unfold collision_free in *. by rewrite <- H12.
Qed.

End order.

(** When no two collected variables derive the same field, the candidate
    mapping, or the exception thrown, does not depend on the order in which
    the environment lists its variables. *)
Theorem collectEnvValues_order_irrelevant
    (env env' : ProcessEnv) (prefix separator : string) :
  collision_free prefix separator env →
  env ≡ₚ env' →
  collectEnvValues env prefix separator = collectEnvValues env' prefix separator.
Proof.
  intros Hfree Hperm. by apply collectEnvValues_loop_Permutation.
Qed.

Lemma collectEnvValues_order_irrelevant_witness :
  collectEnvValues
    [("APP_HOST", Some "test"); ("HOME", Some "/root"); ("APP_PORT", Some "80")]
    "APP_" "_"
  = collectEnvValues
    [("APP_PORT", Some "80"); ("APP_HOST", Some "test"); ("HOME", Some "/root")]
    "APP_" "_".
Proof.
  apply collectEnvValues_order_irrelevant.
  - apply (bool_decide_unpack _). by vm_compute.
  - apply (bool_decide_unpack _). by vm_compute.
Defined.

(** With a collision the order matters: the later variable wins. *)
Example collectEnvValues_order_matters :
  collectEnvValues [("APP_A-B", Some "1"); ("APP_A_B", Some "2")] "APP_" "-"
  = Normal {["a_b" := VString "2"]}
  ∧ collectEnvValues [("APP_A_B", Some "2"); ("APP_A-B", Some "1")] "APP_" "-"
    = Normal {["a_b" := VString "1"]}.
Proof. by split. Qed.

Lemma derived_field_derives prefix separator envKey value field :
  derived_field prefix separator (envKey, Some value) = Some field
  ↔ derives prefix separator envKey field.
Proof.
  unfold derived_field.
  destruct (truthy (toUpperCase prefix)) eqn:Hp; simpl.
  - rewrite derives_prefix by done.
    destruct (startsWith envKey (toUpperCase prefix)); simpl.
    + destruct (toFieldName _ separator); split;
        (by intros [= ->] || by intros [_ [= ->]] || by intros [_ ?] || done).
    + split; [done | by intros [? _]].
  - rewrite derives_empty_prefix by done.
    destruct (toFieldName envKey separator); split; (by intros [= ->] || done).
Qed.

(** ** What masking shows *)

Lemma length_substring n m s :
  (n + m ≤ String.length s)%nat → String.length (String.substring n m s) = m.
Proof.
  revert n m. induction s as [|c s IH]; intros [|n] [|m] Hlen; simpl in *;
    try done; try lia.
  - rewrite IH; [done | lia].
  - apply (IH n 0%nat). lia.
  - apply (IH n (S m)). lia.
Qed.

(** A masked string of more than four characters: two characters, three
    dots, two characters. *)
Lemma maskValue_long_shape (v : string) :
  (4 < String.length v)%nat →
  ∃ a b y z,
    maskValue (VString v)
    = String a (String b ("..." +:+ String y (String z EmptyString))).
Proof.
  intros Hlen. rewrite maskValue_long_string by done.
  pose proof (length_substring 0 2 v ltac:(lia)) as Hfirst.
  pose proof (length_substring (String.length v - 2) 2 v ltac:(lia)) as Hlast.
  destruct (String.substring 0 2 v) as [|a [|b [|? ?]]]; try done.
  destruct (String.substring _ 2 v) as [|y [|z [|? ?]]]; try done.
  by exists a, b, y, z.
Qed.

(** The masked text hides the length of a secret: it has at most nine
    characters whatever the value, and exactly seven for every string of
    more than four characters. *)
Theorem maskValue_hides_length :
  (∀ value, (String.length (maskValue value) ≤ 9)%nat)
  ∧ (∀ v, (4 < String.length v)%nat →
          String.length (maskValue (VString v)) = 7%nat).
Proof.
  assert (∀ v, (4 < String.length v)%nat →
               String.length (maskValue (VString v)) = 7%nat) as Hseven.
  { intros v Hlen. by destruct (maskValue_long_shape v Hlen) as (a & b & y & z & ->). }
  split; [|done]. intros [| | | |s|]; try (simpl; lia).
  destruct (decide (String.length s = 0)%nat) as [Hzero|Hpos].
  { destruct s; [simpl; lia | done]. }
  destruct (decide (String.length s ≤ 4)%nat).
  - rewrite maskValue_short_string by lia. simpl. lia.
  - rewrite Hseven by lia. lia.
Qed.

Lemma maskValue_hides_length_witness :
  String.length (maskValue (VString "a-very-long-secret-value")) = 7%nat.
Proof. apply (proj2 maskValue_hides_length). simpl. lia. Defined.

(** Masking a masked value again changes nothing, unless the value was
    absent or empty. *)
Lemma maskValue_again (value : JsValue) :
  is_nullish_or_empty value = false →
  maskValue (VString (maskValue value)) = maskValue value.
Proof.
  intros Hset. destruct value as [| | | |s|]; try done.
  destruct (decide (String.length s ≤ 4)%nat).
  - destruct s as [|c s]; [done|].
    by rewrite (maskValue_short_string (String c s)) by (simpl in *; lia).
  - assert (4 < String.length s)%nat as Hlong by lia.
    by destruct (maskValue_long_shape s Hlong) as (a & b & y & z & ->).
Qed.

(** The printable view of a printable view is the printable view itself,
    when no sensitive key has an absent or empty value. *)
Theorem getPrintableConfig_again (config : gmap string JsValue) :
  (∀ key value, config !! key = Some value → isSensitive key = true →
     is_nullish_or_empty value = false) →
  getPrintableConfig (getPrintableConfig config) = getPrintableConfig config.
Proof.
  intros Hset. apply map_eq. intros key.
  rewrite !getPrintableConfig_lookup.
  destruct (decide (key = "__proto__")); [done|].
  destruct (config !! key) as [value|] eqn:Hkey; [|done]. simpl.
  destruct (isSensitive key) eqn:Hs; [|done].
  by rewrite maskValue_again by eauto.
Qed.

Lemma getPrintableConfig_again_witness :
  let config : gmap string JsValue :=
    <["host" := VString "localhost"]> {["api_key" := VString "secret123"]} in
  getPrintableConfig (getPrintableConfig config) = getPrintableConfig config.
Proof.
  intros config. apply getPrintableConfig_again. intros key value Hkey _.
  subst config. apply lookup_insert_Some in Hkey as [[_ <-]|[_ Hkey]]; [done|].
  by apply lookup_singleton_Some in Hkey as [_ <-].
Defined.

(** An unset secret is where masking again does change the view. *)
Example getPrintableConfig_again_not_set :
  getPrintableConfig (getPrintableConfig {["password" := VNull]})
  = {["password" := VString "<n...t>"]}.
Proof. by vm_compute. Qed.

(** ** Extras *)

(** The extras of the extras are the extras. *)
Theorem getExtraConfigs_again {F T E} (config : gmap string JsValue)
    (schema : ZodSchema F T E) :
  getExtraConfigs (getExtraConfigs config schema) schema
  = getExtraConfigs config schema.
Proof.
  apply map_eq. intros key. rewrite !getExtraConfigs_lookup.
  destruct (decide (key = "__proto__")); [done|]. by destruct (decide _).
Qed.

(** Masking and extraction commute: the printable view of the extras is
    the extras of the printable view. *)
Theorem getPrintableConfig_getExtraConfigs {F T E} (config : gmap string JsValue)
    (schema : ZodSchema F T E) :
  getPrintableConfig (getExtraConfigs config schema)
  = getExtraConfigs (getPrintableConfig config) schema.
Proof.
  apply map_eq. intros key.
  rewrite getPrintableConfig_lookup, !getExtraConfigs_lookup,
    getPrintableConfig_lookup.
  destruct (decide (key = "__proto__")); [done|]. by destruct (decide _).
Qed.

(** A config with no key [__proto__] splits into its extras and its
    declared entries. *)
Lemma getExtraConfigs_split {F T E} (config : gmap string JsValue)
    (schema : ZodSchema F T E) :
  config !! "__proto__" = None →
  getExtraConfigs config schema
    ∪ filter (λ entry, entry.1 ∈ dom (shape schema)) config = config
  ∧ dom (getExtraConfigs config schema) ## dom (shape schema).
Proof.
  intros Hproto. split.
  - apply map_eq. intros key.
    rewrite lookup_union, getExtraConfigs_lookup, map_lookup_filter.
    destruct (decide (key = "__proto__")) as [->|_].
    { rewrite Hproto. done. }
    destruct (decide (key ∈ dom (shape schema))) as [Hin|Hin];
      destruct (config !! key) as [value|]; simpl; try done.
    + by rewrite option_guard_True.
    + by rewrite option_guard_False.
  - intros key [value Hvalue]%elem_of_dom Hdeclared.
    rewrite getExtraConfigs_lookup in Hvalue.
    destruct (decide (key = "__proto__")); [done|]. by destruct (decide _).
Qed.

(** * Properties of the logger levels *)

(** ** Dotted names *)

Section dotted.
Import Logger.
Implicit Types (name p rest : string) (parts : list string).

Lemma split_dots_not_nil name : split_dots name ≠ [].
Proof.
  destruct name as [|c name]; simpl; [done|].
  destruct (bool_decide (c = "."%char)); [done|].
  by destruct (split_dots name).
Qed.

Lemma join_dots_cons part parts :
  parts ≠ [] → join_dots (part :: parts) = part +:+ "." +:+ join_dots parts.
Proof. by destruct parts. Qed.

(** Joining what [split] gives is the name. *)
Lemma join_split_dots name : join_dots (split_dots name) = name.
Proof.
  induction name as [|c name IH]; [done|]. simpl.
  destruct (bool_decide_reflect (c = "."%char)) as [->|Hc].
  - rewrite join_dots_cons by apply split_dots_not_nil. by rewrite IH.
  - pose proof (split_dots_not_nil name) as Hne.
    destruct (split_dots name) as [|part parts]; [done|].
    rewrite <- IH. by destruct parts.
Qed.

Lemma app_nil_r_string s : s +:+ EmptyString = s.
Proof. induction s as [|c s IH]; [done|]. by rewrite app_cons, IH. Qed.

Lemma app_assoc_string s1 s2 s3 : (s1 +:+ s2) +:+ s3 = s1 +:+ s2 +:+ s3.
Proof. induction s1 as [|c s1 IH]; [done|]. by rewrite !app_cons, IH. Qed.

Lemma join_dots_app parts1 parts2 :
  parts1 ≠ [] → parts2 ≠ [] →
  join_dots (parts1 ++ parts2) = join_dots parts1 +:+ "." +:+ join_dots parts2.
Proof.
  intros H1 H2. induction parts1 as [|part parts1 IH]; [done|].
  destruct parts1 as [|part' parts1].
  - change ([part] ++ parts2) with (part :: parts2).
    by rewrite join_dots_cons.
  - rewrite <- app_comm_cons.
    rewrite (join_dots_cons part ((part' :: parts1) ++ parts2));
      [|by rewrite <- app_comm_cons].
    rewrite IH by done. rewrite (join_dots_cons part (part' :: parts1)) by done.
    by rewrite !app_assoc_string.
Qed.

Lemma split_dots_app p rest :
  split_dots (p +:+ "." +:+ rest) = split_dots p ++ split_dots rest.
Proof.
  induction p as [|c p IH]; [done|]. rewrite app_cons. simpl.
  destruct (bool_decide (c = "."%char)); rewrite IH.
  - done.
  - pose proof (split_dots_not_nil p) as Hne.
    by destruct (split_dots p).
Qed.

(** The dotted prefixes of a name are the joins of the first [i] of its
    parts, for [i] from 1 to the number of parts. *)
Lemma dotted_prefix_take p name :
  dotted_prefix p name
  ↔ ∃ i, (0 < i ≤ length (split_dots name))%nat
         ∧ p = join_dots (take i (split_dots name)).
Proof.
  split.
  - intros [->|[rest ->]].
    + exists (length (split_dots name)). split.
      * pose proof (split_dots_not_nil name). destruct (split_dots name); [done|].
        simpl. lia.
      * by rewrite firstn_all, join_split_dots.
    + exists (length (split_dots p)). rewrite split_dots_app, List.length_app. split.
      * pose proof (split_dots_not_nil p). destruct (split_dots p); [done|].
        simpl. lia.
      * by rewrite take_app_length, join_split_dots.
  - intros (i & [Hpos Hle] & ->).
    destruct (decide (i = length (split_dots name))) as [->|Hne].
    + left. by rewrite firstn_all, join_split_dots.
    + right. exists (join_dots (drop i (split_dots name))).
      rewrite <- join_dots_app.
      * by rewrite take_drop, join_split_dots.
      * intros Hnil. apply (f_equal length) in Hnil.
        rewrite length_take in Hnil. simpl in Hnil. lia.
      * intros Hnil. apply (f_equal length) in Hnil.
        rewrite length_drop in Hnil. simpl in Hnil. lia.
Qed.

(** A longer prefix of the parts joins to a longer name. *)
Lemma length_join_take parts i j :
  (0 < i < j)%nat → (j ≤ length parts)%nat →
  (String.length (join_dots (take i parts))
   < String.length (join_dots (take j parts)))%nat.
Proof.
  intros Hij Hj.
  replace (take j parts) with (take i parts ++ take (j - i) (drop i parts)).
  - rewrite join_dots_app.
    + rewrite !length_app. simpl. lia.
    + intros Hnil. apply (f_equal length) in Hnil.
      rewrite length_take in Hnil. simpl in Hnil. lia.
    + intros Hnil. apply (f_equal length) in Hnil.
      rewrite length_take, length_drop in Hnil. simpl in Hnil. lia.
  - rewrite <- (take_drop i parts) at 3. rewrite take_app_ge.
    + by rewrite length_take, Nat.min_l by lia.
    + rewrite length_take. lia.
Qed.

End dotted.

(** ** Resolving the level of a logger *)

Section resolve.
Import Logger.
Variable loggerLevels : gmap string string.
Implicit Types (name p : string) (parts : list string).

Lemma level_of_Some p m :
  level_of loggerLevels p = Some m
  ↔ (∃ level, loggerLevels !! p = Some level ∧ level ≠ EmptyString
              ∧ m = Level level)
    ∨ (loggerLevels !! p = None ∧ p ∈ Object_prototype_names ∧ m = Inherited p).
Proof.
  unfold level_of. destruct (loggerLevels !! p) as [[|c l]|]; simpl.
  - split; [done|]. by intros [(level & [= <-] & ? & _)|[? _]].
  - split.
    + intros [= <-]. left. by eexists.
    + by intros [(level & [= <-] & _ & ->)|[? _]].
  - destruct (bool_decide_reflect (p ∈ Object_prototype_names)) as [Hin|Hin].
    + split.
      * intros [= <-]. by right.
      * by intros [(level & ? & _)|(_ & _ & ->)].
    + split; [done|]. by intros [(level & ? & _)|(_ & ? & _)].
Qed.

Lemma level_of_None p :
  level_of loggerLevels p = None
  ↔ loggerLevels !! p = Some EmptyString
    ∨ (loggerLevels !! p = None ∧ p ∉ Object_prototype_names).
Proof.
  unfold level_of. destruct (loggerLevels !! p) as [[|c l]|]; simpl.
  - split; [by left | done].
  - split; [done | by intros [|[? _]]].
  - destruct (bool_decide_reflect (p ∈ Object_prototype_names)) as [Hin|Hin].
    + split; [done | by intros [|[_ ?]]].
    + split; [by right | done].
Qed.

Lemma resolve_parents_None parts j :
  resolve_parents loggerLevels parts j = None
  ↔ ∀ i, (0 < i ≤ j)%nat →
         level_of loggerLevels (join_dots (take i parts)) = None.
Proof.
  induction j as [|j IH]; simpl.
  { split; [intros _ i; lia | done]. }
  destruct (level_of loggerLevels (join_dots (take (S j) parts))) as [level|] eqn:Hj.
  - split; [done|]. intros Hall. rewrite Hall in Hj by lia. done.
  - rewrite IH. split.
    + intros Hall i Hi. destruct (decide (i = S j)) as [->|]; [done|].
      apply Hall. lia.
    + intros Hall i Hi. apply Hall. lia.
Qed.

Lemma resolve_parents_first parts j i level :
  (0 < i ≤ j)%nat →
  level_of loggerLevels (join_dots (take i parts)) = Some level →
  (∀ i', (i < i' ≤ j)%nat →
         level_of loggerLevels (join_dots (take i' parts)) = None) →
  resolve_parents loggerLevels parts j = Some level.
Proof.
  induction j as [|j IH]; [lia|]. intros Hi Hlevel Hnone. simpl.
  destruct (decide (i = S j)) as [->|Hne].
  - by rewrite Hlevel.
  - rewrite Hnone by lia. apply IH; [lia | done |]. intros i' Hi'. apply Hnone. lia.
Qed.

Lemma resolve_parents_sound parts j level :
  resolve_parents loggerLevels parts j = Some level →
  ∃ i, (0 < i ≤ j)%nat
       ∧ level_of loggerLevels (join_dots (take i parts)) = Some level.
Proof.
  induction j as [|j IH]; [done|]. simpl.
  destruct (level_of loggerLevels (join_dots (take (S j) parts))) as [l|] eqn:Hj.
  - intros [= <-]. exists (S j). split; [lia | done].
  - intros (i & Hi & Hlevel)%IH. exists i. split; [lia | done].
Qed.

(** The exact match is the first round of one descending loop. *)
Lemma resolveLoggerLevel_loop name :
  resolveLoggerLevel loggerLevels name
  = resolve_parents loggerLevels (split_dots name) (length (split_dots name)).
Proof.
  unfold resolveLoggerLevel.
  pose proof (split_dots_not_nil name) as Hne.
  pose proof (join_split_dots name) as Hjoin.
  destruct (split_dots name) as [|part parts]; [done|].
  cbn [length]. rewrite Nat.sub_1_r. cbn [Nat.pred resolve_parents].
  replace (take (S (length parts)) (part :: parts)) with (part :: parts)
    by (symmetry; apply (firstn_all (part :: parts))).
  by rewrite Hjoin.
Qed.

(** The level of a logger is what the table gives for the nearest name in
    its dotted hierarchy: its own name, or else the longest of its
    ancestors, for which reading the table gives a truthy value.  Reading
    the table, a plain object, at a name gives the level of its own entry,
    truthy unless it is the empty string, or else the member inherited from
    [Object.prototype] when the name is one of its names.  The level is
    undefined exactly when reading gives no truthy value at any of these
    names. *)
Theorem resolveLoggerLevel_nearest (name : string) :
  (∀ p m,
     dotted_prefix p name →
     ((∃ level, loggerLevels !! p = Some level ∧ level ≠ EmptyString
                ∧ m = Level level)
      ∨ (loggerLevels !! p = None ∧ p ∈ Object_prototype_names
         ∧ m = Inherited p)) →
     (∀ p', dotted_prefix p' name →
            (String.length p < String.length p')%nat →
            loggerLevels !! p' = Some EmptyString
            ∨ (loggerLevels !! p' = None ∧ p' ∉ Object_prototype_names)) →
     resolveLoggerLevel loggerLevels name = Some m)
  ∧ (∀ m,
       resolveLoggerLevel loggerLevels name = Some m →
       ∃ p, dotted_prefix p name
            ∧ ((∃ level, loggerLevels !! p = Some level ∧ level ≠ EmptyString
                         ∧ m = Level level)
               ∨ (loggerLevels !! p = None ∧ p ∈ Object_prototype_names
                  ∧ m = Inherited p)))
  ∧ (resolveLoggerLevel loggerLevels name = None
     ↔ ∀ p, dotted_prefix p name →
            loggerLevels !! p = Some EmptyString
            ∨ (loggerLevels !! p = None ∧ p ∉ Object_prototype_names)).
Proof.
  rewrite resolveLoggerLevel_loop. split; [|split; [|split]].
  - intros p m (i & Hi & ->)%dotted_prefix_take Hp Hlonger.
    apply (resolve_parents_first _ _ i); [done | by apply level_of_Some |].
    intros i' Hi'. apply level_of_None, Hlonger.
    + apply dotted_prefix_take. exists i'. split; [lia | done].
    + apply length_join_take; lia.
  - intros m (i & Hi & Hp%level_of_Some)%resolve_parents_sound.
    exists (join_dots (take i (split_dots name))). split; [|done].
    apply dotted_prefix_take. by exists i.
  - intros Hnone p (i & Hi & ->)%dotted_prefix_take.
    apply level_of_None. by apply (proj1 (resolve_parents_None _ _) Hnone).
  - intros Hnone. apply resolve_parents_None. intros i Hi.
    apply level_of_None, Hnone, dotted_prefix_take. by exists i.
Qed.

End resolve.

Lemma resolveLoggerLevel_nearest_witness :
  Logger.resolveLoggerLevel {["uvicorn" := "warn"]} "uvicorn.error"
  = Some (Logger.Level "warn").
Proof.
  apply (proj1 (resolveLoggerLevel_nearest {["uvicorn" := "warn"]} "uvicorn.error")
           "uvicorn" (Logger.Level "warn")).
  - right. by exists "error".
  - left. by exists "warn".
  - intros p' (i & Hi & ->)%dotted_prefix_take Hlen.
    simpl in Hi. destruct i as [|[|[|i]]]; simpl in *; try lia.
    right. split; [done|]. apply (bool_decide_unpack _). by vm_compute.
Defined.

Example resolveLoggerLevel_exact_first :
  Logger.resolveLoggerLevel
    (<["uvicorn" := "warn"]> {["uvicorn.error" := "debug"]}) "uvicorn.error"
  = Some (Logger.Level "debug").
Proof. by vm_compute. Qed.

Example resolveLoggerLevel_empty_level_skipped :
  Logger.resolveLoggerLevel
    (<["uvicorn" := "warn"]> {["uvicorn.error" := EmptyString]}) "uvicorn.error.h11"
  = Some (Logger.Level "warn").
Proof. by vm_compute. Qed.

Example resolveLoggerLevel_not_a_prefix_of_the_text :
  Logger.resolveLoggerLevel {["uvi" := "warn"]} "uvicorn.error" = None.
Proof. by vm_compute. Qed.

(** With no level set at all, a logger named after a member of
    [Object.prototype], or below such a name, resolves to that member. *)
Example resolveLoggerLevel_inherited_member :
  Logger.resolveLoggerLevel ∅ "constructor" = Some (Logger.Inherited "constructor")
  ∧ Logger.resolveLoggerLevel ∅ "toString.request"
    = Some (Logger.Inherited "toString")
  ∧ Logger.resolveLoggerLevel {["toString" := "info"]} "toString.request"
    = Some (Logger.Level "info").
Proof. by vm_compute. Qed.

(** ** Flattening a levels document *)

Section flatten.
Import Logger.
Implicit Types (data : Json) (entries : list (string * Json))
  (result : gmap string string) (path : list string).

(** Induction on documents: the entries of an object and the items of an
    array satisfy the property. *)
Lemma Json_nested_ind (P : Json → Prop) :
  P JNull → (∀ b, P (JBool b)) → (∀ n, P (JNumber n)) → (∀ s, P (JString s)) →
  (∀ items, Forall P items → P (JArray items)) →
  (∀ entries, Forall (λ entry, P entry.2) entries → P (JObject entries)) →
  ∀ data, P data.
Proof.
  intros Hnull Hbool Hnumber Hstring Harray Hobject.
  fix IH 1. intros [| b | n | s | items | entries].
  - apply Hnull.
  - apply Hbool.
  - apply Hnumber.
  - apply Hstring.
  - apply Harray. induction items as [|item items IHitems]; constructor;
      [apply IH | apply IHitems].
  - apply Hobject. induction entries as [|[key value] entries IHentries];
      constructor; [apply IH | apply IHentries].
Qed.

Lemma flatten_object entries parentKey :
  flatten (JObject entries) parentKey = flatten_loop parentKey entries ∅.
Proof.
  unfold flatten_loop. cbn [flatten]. generalize (∅ : gmap string string).
  induction entries as [|[key value] entries IH]; intros result; [done|].
  cbn [foldl]. rewrite <- IH. by destruct value.
Qed.

Lemma Object_assign_lookup {V} (target source : gmap string V) k :
  Object_assign target source !! k
  = if decide (k = "__proto__") then target !! k
    else match source !! k with
         | Some w => Some w
         | None => target !! k
         end.
Proof.
  unfold Object_assign, Object_entries.
  rewrite (foldl_assign_lookup
    (λ key value, if decide (key = "__proto__") then None else Some value)).
  - rewrite list_to_map_to_list. destruct (decide _); by destruct (source !! k).
  - intros r key value. apply assign_from_option.
  - apply NoDup_fst_map_to_list.
Qed.

(** The loop never binds the key [__proto__]. *)
Lemma flatten_loop_proto parentKey entries result :
  flatten_loop parentKey entries result !! "__proto__" = result !! "__proto__".
Proof.
  unfold flatten_loop. revert result.
  induction entries as [|[k value] entries IH]; intros result; [done|].
  cbn [foldl]. rewrite IH. destruct value; try done.
  - apply lookup_assign_proto.
  - rewrite Object_assign_lookup. by destruct (decide _).
Qed.

Lemma flatten_proto data parentKey : flatten data parentKey !! "__proto__" = None.
Proof.
  destruct data as [| | | | |entries]; try done.
  by rewrite flatten_object, flatten_loop_proto.
Qed.

(** [Object.assign] of a flattened document binds all of it. *)
Lemma Object_assign_flatten result data parentKey :
  Object_assign result (flatten data parentKey) = flatten data parentKey ∪ result.
Proof.
  apply map_eq. intros key. rewrite Object_assign_lookup, lookup_union.
  destruct (decide (key = "__proto__")) as [->|_].
  - rewrite flatten_proto. by destruct (result !! "__proto__").
  - by destruct (flatten data parentKey !! key), (result !! key).
Qed.

(** Whatever the loop binds is a string of the document, under the key
    made of the keys on the way to it. *)
Lemma flatten_sound data :
  ∀ entries, data = JObject entries →
  ∀ parentKey key s,
    flatten data parentKey !! key = Some s →
    ∃ path, leaf_at entries path s ∧ key = foldl child_key parentKey path.
Proof.
  induction data as [| | | | |entries IH] using Json_nested_ind; try done.
  intros ? [= <-] parentKey key s. rewrite flatten_object.
  assert (∀ result,
    flatten_loop parentKey entries result !! key = Some s →
    result !! key = Some s
    ∨ ∃ path, leaf_at entries path s ∧ key = foldl child_key parentKey path)
    as Hloop.
  { unfold flatten_loop.
    induction IH as [|[k value] entries Hvalue _ IHentries]; intros result;
      [by left|].
    cbn [foldl]. intros Hkey.
    assert (∀ path, leaf_at entries path s → leaf_at ((k, value) :: entries) path s)
      as Hweaken.
    { intros path Hleaf. induction Hleaf.
      - apply leaf_here. by right.
      - eapply leaf_below; [by right | done]. }
    destruct (IHentries _ Hkey) as [Hresult|(path & Hleaf & ->)];
      [|right; by eauto].
    destruct value as [| | |s'|items|sub]; try (by left).
    - apply lookup_assign_Some in Hresult as [(<- & _ & ->)|Hresult]; [|by left].
      right. exists [k]. split; [|done]. apply leaf_here. by left.
    - rewrite Object_assign_flatten in Hresult.
      apply lookup_union_Some_raw in Hresult as [Hsub|[_ Hresult]]; [|by left].
      destruct (Hvalue sub eq_refl _ _ _ Hsub) as (path & Hleaf & ->).
      right. exists (k :: path). split; [|done].
      eapply leaf_below; [by left | done]. }
  intros Hkey. destruct (Hloop ∅ Hkey) as [Hempty|?]; [|done].
  by rewrite lookup_empty in Hempty.
Qed.

Lemma flatten_loop_mono parentKey entries result key :
  is_Some (result !! key) →
  is_Some (flatten_loop parentKey entries result !! key).
Proof.
  unfold flatten_loop. revert result.
  induction entries as [|[k value] entries IH]; intros result Hkey; [done|].
  cbn [foldl]. apply IH. destruct value; try done.
  - by apply lookup_assign_is_Some.
  - rewrite Object_assign_flatten. apply lookup_union_is_Some. by right.
Qed.

(** Every string of the document is bound under the key of its path, when
    that key is not [__proto__]. *)
Lemma flatten_complete data :
  ∀ entries, data = JObject entries →
  ∀ parentKey path s,
    leaf_at entries path s →
    foldl child_key parentKey path ≠ "__proto__" →
    is_Some (flatten data parentKey !! foldl child_key parentKey path).
Proof.
  induction data as [| | | | |entries IH] using Json_nested_ind; try done.
  intros ? [= <-] parentKey path s Hleaf Hpath. rewrite flatten_object.
  generalize (∅ : gmap string string). unfold flatten_loop.
  destruct Hleaf as [entries key s Hin|entries key sub path s Hin Hleaf].
  - induction entries as [|[k value] entries IHentries]; intros result.
    { by apply elem_of_nil in Hin. }
    cbn [foldl]. apply Forall_cons in IH as [_ IH].
    apply elem_of_cons in Hin as [[= <- <-]|Hin]; [|by apply IHentries].
    apply flatten_loop_mono. by rewrite lookup_assign_eq.
  - induction entries as [|[k value] entries IHentries]; intros result.
    { by apply elem_of_nil in Hin. }
    cbn [foldl]. apply Forall_cons in IH as [Hvalue IH].
    apply elem_of_cons in Hin as [[= <- <-]|Hin]; [|by apply IHentries].
    apply flatten_loop_mono. rewrite Object_assign_flatten.
    apply lookup_union_is_Some. left.
    by apply (Hvalue sub eq_refl _ path s).
Qed.

(** The keys of the flattened document are exactly the keys, other than
    [__proto__], of the paths that end in a string; every value is one of
    these strings.  Numbers, booleans, nulls and arrays leave no trace, and
    neither does a string whose key is [__proto__]. *)
Theorem flattenYamlDict_keys entries parentKey :
  (∀ key,
     key ∈ dom (flattenYamlDict entries parentKey)
     ↔ key ≠ "__proto__"
       ∧ ∃ path s, leaf_at entries path s ∧ key = foldl child_key parentKey path)
  ∧ (∀ key s,
       flattenYamlDict entries parentKey !! key = Some s →
       ∃ path, leaf_at entries path s ∧ key = foldl child_key parentKey path).
Proof.
  split; [|by apply flatten_sound].
  intros key. rewrite elem_of_dom. split.
  - intros [s Hs]. split.
    { intros ->. unfold flattenYamlDict in Hs. by rewrite flatten_proto in Hs. }
    destruct (flatten_sound _ entries eq_refl _ _ _ Hs) as (path & ? & ?). eauto.
  - intros (Hkey & path & s & Hleaf & ->).
    by apply (flatten_complete _ entries eq_refl parentKey path s).
Qed.

(** A level under the key [__proto__] at the top of the document is lost;
    below another key it is kept. *)
Example flattenYamlDict_proto_key :
  flattenYamlDict [("__proto__", JString "info"); ("root", JString "warn")]
    EmptyString
  = {["root" := "warn"]}
  ∧ flattenYamlDict [("uvicorn", JObject [("__proto__", JString "info")])]
      EmptyString
    = {["uvicorn.__proto__" := "info"]}.
Proof. by vm_compute. Qed.

End flatten.

Section flatten_laws.
Import Logger.
Implicit Types (data : Json) (entries : list (string * Json))
  (result : gmap string string).

#[local] Instance under_inj parentKey : Inj (=) (=) (under parentKey).
Proof.
  intros k1 k2 Heq. unfold under in Heq.
  by apply (inj (String.append parentKey)), (inj (String.append ".")) in Heq.
Qed.

Lemma under_under a b key : under a (under b key) = under (under a b) key.
Proof. unfold under. by rewrite !app_assoc_string. Qed.

Lemma below_below a b result :
  below a (below b result) = below (under a b) result.
Proof.
  unfold below. apply map_eq. intros key. apply option_eq. intros s.
  rewrite !lookup_kmap_Some by apply _. split.
  - intros (i & -> & (j & -> & Hj)%lookup_kmap_Some); [|apply _].
    exists j. by rewrite under_under.
  - intros (j & -> & Hj). exists (under b j). rewrite under_under.
    split; [done|]. apply lookup_kmap_Some; [apply _|]. by exists j.
Qed.

Lemma child_key_under parentKey key :
  truthy parentKey = true → child_key parentKey key = under parentKey key.
Proof. unfold child_key. by intros ->. Qed.

Lemma truthy_under parentKey key : truthy (under parentKey key) = true.
Proof. unfold under. by destruct parentKey. Qed.

Lemma under_not_proto parentKey key : under parentKey key ≠ "__proto__".
Proof.
  unfold under. intros Heq.
  do 9 (destruct parentKey as [|? parentKey]; [done|];
        rewrite app_cons in Heq; injection Heq as _ Heq).
  destruct parentKey; [done | by rewrite app_cons in Heq].
Qed.

Lemma assign_under parentKey key s result :
  assign (under parentKey key) s (below parentKey result)
  = below parentKey (<[key := s]> result).
Proof.
  rewrite assign_other by apply under_not_proto.
  unfold below. symmetry. apply kmap_insert, _.
Qed.

(** Below a parent key, flattening is flattening below the last part of
    the parent and putting the first part before every key. *)
Lemma flatten_under_under data :
  ∀ a b, flatten data (under a b) = below a (flatten data b) ∨ truthy b = false.
Proof.
  induction data as [| | | | |entries IH] using Json_nested_ind;
    intros parentKey lastKey;
    try (by left; unfold below; cbn [flatten]; rewrite kmap_empty).
  rename parentKey into a, lastKey into b.
  destruct (truthy b) eqn:Hb; [left | by right].
  rewrite !flatten_object.
  replace (∅ : gmap string string) with (below a ∅) at 1
    by (unfold below; apply kmap_empty).
  generalize (∅ : gmap string string). unfold flatten_loop.
  induction entries as [|[key value] entries IHentries]; intros result; [done|].
  apply Forall_cons in IH as [Hvalue IH]. cbn [snd] in Hvalue.
  cbn [foldl].
  rewrite (child_key_under (under a b)) by apply truthy_under.
  rewrite (child_key_under b) by done.
  rewrite <- under_under.
  destruct value as [| | |s|items|sub]; try (by apply IHentries).
  - rewrite (assign_other (under b key)) by apply under_not_proto.
    rewrite assign_under. by apply IHentries.
  - rewrite !Object_assign_flatten.
    destruct (Hvalue a (under b key)) as [->|Hfalse];
      [|by rewrite truthy_under in Hfalse].
    replace (below a (flatten (JObject sub) (under b key)) ∪ below a result)
      with (below a (flatten (JObject sub) (under b key) ∪ result))
      by (unfold below; apply kmap_union, _).
    by apply IHentries.
Qed.

Lemma flatten_under entries parentKey :
  forallb (λ entry, truthy entry.1) entries = true →
  (∀ s, ("__proto__", JString s) ∉ entries) →
  truthy parentKey = true →
  flatten (JObject entries) parentKey
  = below parentKey (flatten (JObject entries) EmptyString).
Proof.
  intros Hkeys Hproto Hparent. rewrite !flatten_object.
  replace (∅ : gmap string string) with (below parentKey ∅) at 1
    by (unfold below; apply kmap_empty).
  generalize (∅ : gmap string string). unfold flatten_loop.
  induction entries as [|[key value] entries IHentries]; intros result; [done|].
  cbn [forallb fst] in Hkeys. apply andb_prop in Hkeys as [Hkey Hkeys].
  assert (∀ s, ("__proto__", JString s) ∉ entries) as Hproto'.
  { intros s Hin. apply (Hproto s). by right. }
  cbn [foldl]. rewrite child_key_under by done. cbn [child_key truthy].
  destruct value as [| | |s|items|sub]; try (by apply IHentries).
  - rewrite (assign_other key).
    + rewrite assign_under. by apply IHentries.
    + intros ->. apply (Hproto s). by left.
  - rewrite !Object_assign_flatten.
    destruct (flatten_under_under (JObject sub) parentKey key) as [->|Hfalse];
      [|congruence].
    replace (below parentKey (flatten (JObject sub) key) ∪ below parentKey result)
      with (below parentKey (flatten (JObject sub) key ∪ result))
      by (unfold below; apply kmap_union, _).
    by apply IHentries.
Qed.

Lemma keys_not_empty_top entries :
  keys_not_empty (JObject entries) = true →
  forallb (λ entry, truthy entry.1) entries = true.
Proof.
  cbn [keys_not_empty]. induction entries as [|[key value] entries IH]; [done|].
  cbn [forallb fst snd]. intros [[-> _]%andb_prop Hkeys]%andb_prop.
  by apply IH.
Qed.

(** Flattening below a parent key is flattening at the top and putting
    the parent key and a dot before every key, when no key of the document
    is the empty string and no string has the key [__proto__] at the top of
    the document. *)
Theorem flattenYamlDict_under entries parentKey :
  keys_not_empty (JObject entries) = true →
  (∀ s, ("__proto__", JString s) ∉ entries) →
  parentKey ≠ EmptyString →
  flattenYamlDict entries parentKey
  = below parentKey (flattenYamlDict entries EmptyString).
Proof.
  intros Hkeys Hproto Hparent. apply flatten_under; [|done|].
  - by apply keys_not_empty_top.
  - by apply truthy_spec.
Qed.

Lemma flattenYamlDict_under_witness :
  flattenYamlDict
    [("error", JString "DEBUG"); ("access", JNumber 10);
     ("h11", JObject [("__proto__", JString "info")])] "uvicorn"
  = below "uvicorn"
      (flattenYamlDict
         [("error", JString "DEBUG"); ("access", JNumber 10);
          ("h11", JObject [("__proto__", JString "info")])]
         EmptyString).
Proof.
  apply flattenYamlDict_under; [done| |done].
  intros s Hin. repeat (apply elem_of_cons in Hin as [[=]|Hin]).
  by apply elem_of_nil in Hin.
Defined.

(** With a string under the key [__proto__] at the top, the two differ. *)
Example flattenYamlDict_under_proto_key :
  flattenYamlDict [("__proto__", JString "info")] "p" = {["p.__proto__" := "info"]}
  ∧ flattenYamlDict [("__proto__", JString "info")] EmptyString = ∅.
Proof. by vm_compute. Qed.

(** An empty key loses its level when it is at the top: below a parent the
    same document flattens to another key. *)
Example flattenYamlDict_empty_key :
  flattenYamlDict [(EmptyString, JObject [("a", JString "info")])] EmptyString
  = {["a" := "info"]}
  ∧ flattenYamlDict [(EmptyString, JObject [("a", JString "info")])] "p"
    = {["p..a" := "info"]}.
Proof. by split. Qed.

(** A later entry replaces an earlier one that flattens to the same key. *)
Example flattenYamlDict_collision :
  flattenYamlDict
    [("a.b", JString "info"); ("a", JObject [("b", JString "debug")])] EmptyString
  = {["a.b" := "debug"]}.
Proof. by vm_compute. Qed.

(** A document that is flat already, with distinct names, flattens to the
    table it spells out, without the name [__proto__]. *)
Theorem flattenYamlDict_flat (levels : list (string * string)) :
  NoDup levels.*1 →
  flattenYamlDict (flat_document levels) EmptyString
  = delete "__proto__" (list_to_map levels).
Proof.
  intros Hnodup. unfold flattenYamlDict. rewrite flatten_object.
  apply map_eq. intros key.
  transitivity (foldl (λ result '(name, level), assign name level result)
                  (∅ : gmap string string) levels !! key).
  { f_equal. unfold flatten_loop, flat_document.
    generalize (∅ : gmap string string).
    induction levels as [|[name level] levels IH]; intros result; [done|].
    apply NoDup_cons in Hnodup as [_ Hnodup]. cbn [fmap list_fmap foldl].
    by apply IH. }
  rewrite (foldl_assign_lookup
    (λ name level, if decide (name = "__proto__") then None else Some level));
    [|intros r name level; apply assign_from_option|done].
  rewrite lookup_empty. destruct (decide (key = "__proto__")) as [->|Hne].
  - rewrite lookup_delete_eq. by destruct (list_to_map levels !! "__proto__").
  - rewrite lookup_delete_ne by done. by destruct (list_to_map levels !! key).
Qed.

Lemma flattenYamlDict_flat_witness :
  flattenYamlDict
    (flat_document [("root", "INFO"); ("__proto__", "DEBUG"); ("uvicorn.error", "WARN")])
    EmptyString
  = delete "__proto__"
      (list_to_map [("root", "INFO"); ("__proto__", "DEBUG"); ("uvicorn.error", "WARN")]).
Proof.
  apply flattenYamlDict_flat. apply (bool_decide_unpack _). by vm_compute.
Defined.

End flatten_laws.

(** ** Level names *)

Section levels.
Import Logger.

Lemma lower_upper_char c : lower_char (upper_char c) = lower_char c.
Proof. by destruct c as [[] [] [] [] [] [] [] []]. Qed.

Lemma toLowerCase_toUpperCase s : toLowerCase (toUpperCase s) = toLowerCase s.
Proof.
  unfold toLowerCase, toUpperCase. induction s as [|c s IH]; simpl; [done|].
  by rewrite lower_upper_char, IH.
Qed.

Lemma normalize_level level :
  (if String.eqb (toUpperCase level) "WARN" then "warn" else toLowerCase level)
  = toLowerCase level.
Proof.
  destruct (String.eqb_spec (toUpperCase level) "WARN") as [Hwarn|]; [|done].
  by rewrite <- toLowerCase_toUpperCase, Hwarn.
Qed.

(** Normalizing a table of levels lower-cases every level and keeps every
    name: the branch for WARN gives what lower-casing gives. *)
Theorem normalize_levels_lower_case (flattened : gmap string string) :
  normalize_levels flattened = toLowerCase <$> flattened.
Proof.
  apply map_eq. intros name. unfold normalize_levels.
  rewrite (fold_entries_lookup (λ _ level, Some (toLowerCase level))).
  - rewrite lookup_fmap. by destruct (flattened !! name).
  - intros result key level. simpl. by rewrite normalize_level.
Qed.

Variables JSON_parse yaml_load : string → string + Json.
Variable loadLoggingLevelsFromFile : string → option (gmap string string) * list string.

Lemma levels_of_parsed_Some parsed table written :
  levels_of_parsed parsed = (Some table, written) →
  ∃ entries, parsed = JObject entries
             ∧ table = toLowerCase <$> flattenYamlDict entries EmptyString.
Proof.
  destruct parsed as [| | | | |entries]; try done. intros [= <- _].
  exists entries. by rewrite normalize_levels_lower_case.
Qed.

(** The levels [loadLoggingLevelsFromEnv] returns are those of the levels
    file named by LOGGING_LEVELS_FILE, or else those of LOGGING_LEVELS:
    its text parsed as JSON, or as YAML when JSON parsing throws, is an
    object, and the levels are its flattening with every level
    lower-cased. *)
Theorem loadLoggingLevelsFromEnv_levels (env : ProcessEnv)
    (table : gmap string string) (written : list string) :
  loadLoggingLevelsFromEnv JSON_parse yaml_load loadLoggingLevelsFromFile env
  = (Some table, written) →
  (∃ filePath,
     getenv env "LOGGING_LEVELS_FILE" = Some filePath
     ∧ filePath ≠ EmptyString
     ∧ (loadLoggingLevelsFromFile filePath).1 = Some table)
  ∨ (∃ envValue entries,
       getenv env "LOGGING_LEVELS" = Some envValue
       ∧ envValue ≠ EmptyString
       ∧ (JSON_parse envValue = inr (JObject entries)
          ∨ ∃ e, JSON_parse envValue = inl e
                 ∧ yaml_load envValue = inr (JObject entries))
       ∧ table = toLowerCase <$> flattenYamlDict entries EmptyString).
Proof.
  unfold loadLoggingLevelsFromEnv.
  assert (∀ w, levels_of_variable JSON_parse yaml_load env w = (Some table, written) →
    ∃ envValue entries,
      getenv env "LOGGING_LEVELS" = Some envValue
      ∧ envValue ≠ EmptyString
      ∧ (JSON_parse envValue = inr (JObject entries)
         ∨ ∃ e, JSON_parse envValue = inl e
                ∧ yaml_load envValue = inr (JObject entries))
      ∧ table = toLowerCase <$> flattenYamlDict entries EmptyString) as Henv.
  { intros w. unfold levels_of_variable.
    destruct (getenv env "LOGGING_LEVELS") as [envValue|]; [|done].
    destruct (truthy envValue) eqn:Htruthy; [|done]. cbn [negb].
    apply truthy_spec in Htruthy.
    destruct (JSON_parse envValue) as [e|parsed] eqn:Hjson.
    - destruct (yaml_load envValue) as [e'|parsed] eqn:Hyaml; [done|].
      destruct (levels_of_parsed parsed) as [result w'] eqn:Hparsed.
      intros [= -> _].
      apply levels_of_parsed_Some in Hparsed as (entries & -> & ->).
      exists envValue, entries. repeat split; [done..|]. right. by exists e.
    - destruct (levels_of_parsed parsed) as [result w'] eqn:Hparsed.
      intros [= -> _].
      apply levels_of_parsed_Some in Hparsed as (entries & -> & ->).
      exists envValue, entries. repeat split; [done..|]. by left. }
  destruct (getenv env "LOGGING_LEVELS_FILE") as [filePath|]; [|by right; eauto].
  destruct (truthy filePath) eqn:Htruthy; [|by right; eauto].
  destruct (loadLoggingLevelsFromFile filePath) as [[result|] w] eqn:Hfile.
  - intros [= -> _]. left. exists filePath. rewrite Hfile.
    split; [done|]. split; [by apply truthy_spec | done].
  - right. by eauto.
Qed.

End levels.

Lemma loadLoggingLevelsFromEnv_levels_witness :
  let JSON_parse (text : string) : string + Logger.Json :=
    inr (Logger.JObject
           [("uvicorn", Logger.JObject [("error", Logger.JString "WARN")])]) in
  let yaml_load (text : string) : string + Logger.Json := inl "no document" in
  let from_file (path : string) : option (gmap string string) * list string :=
    (None, []) in
  let env := [("LOGGING_LEVELS", Some "{...}")] in
  (∃ filePath,
     Logger.getenv env "LOGGING_LEVELS_FILE" = Some filePath
     ∧ filePath ≠ EmptyString
     ∧ (from_file filePath).1 = Some {["uvicorn.error" := "warn"]})
  ∨ (∃ envValue entries,
       Logger.getenv env "LOGGING_LEVELS" = Some envValue
       ∧ envValue ≠ EmptyString
       ∧ (JSON_parse envValue = inr (Logger.JObject entries)
          ∨ ∃ e, JSON_parse envValue = inl e
                 ∧ yaml_load envValue = inr (Logger.JObject entries))
       ∧ {["uvicorn.error" := "warn"]}
         = toLowerCase <$> Logger.flattenYamlDict entries EmptyString).
Proof.
  intros JSON_parse yaml_load from_file env.
  apply (loadLoggingLevelsFromEnv_levels JSON_parse yaml_load from_file env
           {["uvicorn.error" := "warn"]} []).
  by vm_compute.
Defined.

(** From a nested document to the level of a logger. *)
Example levels_document_resolved :
  Logger.resolveLoggerLevel
    (Logger.normalize_levels
       (Logger.flattenYamlDict
          [("uvicorn", Logger.JObject [("error", Logger.JString "DEBUG")]);
           ("root", Logger.JNumber 10)]
          EmptyString))
    "uvicorn.error.h11"
  = Some (Logger.Level "debug").
Proof. by vm_compute. Qed.
